(** * KVL: a key/value and list store over one SQLite table

    Shallow embedding of [src/index.ts] (class [KVL]) and proofs about its
    operations.

    The class keeps no state of its own besides the optional
    [expireTimeMs]: every method is one or two SQL statements run against
    the table [kvl].  The table is embedded as the list of its rows, each SQL
    statement as a function on that list, and each method as the composition
    of its statements, in the order the source runs them.

    Inputs that the source draws from its environment are explicit
    arguments here: [Date.now()] is the argument [now], and
    [crypto.randomUUID()] is the argument [uuid].

    Numbers are integers ([Z]); strings are [String.string], one [ascii]
    standing for one character, of code point below 256. *)

From Stdlib Require Import ZArith List String Ascii Bool Lia Sorted Permutation.
Import ListNotations.
Open Scope string_scope.
Open Scope list_scope.
Open Scope Z_scope.

(** ** Rows and the table *)

(** Modelled from the spec: the schema that [makeDB] (imported by
    [src/index.ts], absent from the sources) creates: one table [kvl] with
    the columns [id] (auto-increment integer, primary key), [key] (unique
    string), [value] (string), [labels] (nullable string), [createTime] and
    [updateTime] (integers). *)
Record row : Type := mkRow {
  id : Z;
  key : string;
  value : string;
  labels : option string;
  createTime : Z;
  updateTime : Z
}.

(** The state of a [KVL] instance: the constructor argument [expireTimeMs]
    ([None] when it was left out), the rows of the table in the order the
    table stores them, and the largest id the engine has handed out so far
    (its auto-increment counter). *)
Record KVL : Type := mkKVL {
  expireTimeMs : option Z;
  kvl_rows : list row;
  kvl_seq : Z
}.

(** What a method call can do besides changing the table: return a value or
    throw. *)
Inductive js_error : Type :=
| Error (msg : string)
| RangeError (msg : string).

Inductive outcome (A : Type) : Type :=
| Returned (a : A)
| Thrown (e : js_error).
Arguments Returned {A} a.
Arguments Thrown {A} e.

(** ** The SQL operators the statements use *)

(** SQLite folds the letters A-Z only when it compares for [LIKE]. *)
Definition to_lower (c : ascii) : ascii :=
  let n := N_of_ascii c in
  if (65 <=? n)%N && (n <=? 90)%N then ascii_of_N (n + 32) else c.

(** SQLite's comparison of a pattern with a text ([patternCompare], as
    [LIKE] without an [ESCAPE] clause calls it): [%] stands for any run of
    characters, [_] for any one character, and every other character of the
    pattern for itself up to the case of A-Z. *)
Fixpoint pattern_compare (p : string) : string -> bool :=
  match p with
  | EmptyString => fun s => match s with EmptyString => true | String _ _ => false end
  | String c p' =>
      if Ascii.eqb c "%" then
        fix star (s : string) : bool :=
          pattern_compare p' s
          || match s with EmptyString => false | String _ s' => star s' end
      else if Ascii.eqb c "_" then
        fun s => match s with EmptyString => false | String _ s' => pattern_compare p' s' end
      else
        fun s =>
          match s with
          | EmptyString => false
          | String d s' => Ascii.eqb (to_lower c) (to_lower d) && pattern_compare p' s'
          end
  end.

(** The text functions of SQLite read a string up to its first NUL. *)
Fixpoint c_str (s : string) : string :=
  match s with
  | EmptyString => EmptyString
  | String c s' => if Ascii.eqb c zero then EmptyString else String c (c_str s')
  end.

(** [sql_like p s] is SQLite's [s LIKE p]: pattern and text are compared
    up to their first NUL. *)
Definition sql_like (p s : string) : bool :=
  pattern_compare (c_str p) (c_str s).

(** The length of a string in the bytes of UTF-8, which is how SQLite
    measures a pattern. *)
Fixpoint utf8_bytes (s : string) : Z :=
  match s with
  | EmptyString => 0
  | String c s' => (if (N_of_ascii c <? 128)%N then 1 else 2) + utf8_bytes s'
  end.

(** [LIKE] refuses a pattern of more than 50000 bytes (the engine's default
    [SQLITE_LIMIT_LIKE_PATTERN_LENGTH]) with the error "LIKE or GLOB pattern
    too complex", each time it is evaluated on a row. The methods below that
    select with [LIKE] are embedded for the calls on which this does not
    happen: [like_throws] tells the others apart. *)
Definition like_pattern_too_complex (name : string) : bool :=
  50000 <? utf8_bytes (name ++ ":%").

(** The condition [key LIKE ? || ':%'] with [name] bound to the
    placeholder: shared by [pop], [shift], [all] and [page]. A call on which
    [LIKE] refuses the pattern as too long (see [like_throws] below) throws
    instead of selecting, and is outside what these four embed. *)
Definition key_like (name : string) (r : row) : bool :=
  sql_like (name ++ ":%")%string (key r).

(** The condition [key = ?]. *)
Definition key_is (k : string) (r : row) : bool := String.eqb (key r) k.

(** [UPDATE kvl SET ... WHERE cond]: the new rows and the number of rows
    changed. *)
Definition sql_update (cond : row -> bool) (f : row -> row) (rs : list row)
  : list row * Z :=
  (map (fun r => if cond r then f r else r) rs,
   Z.of_nat (List.length (filter cond rs))).

(** [DELETE FROM kvl WHERE cond]: the rows left and the number deleted. *)
Definition sql_delete (cond : row -> bool) (rs : list row) : list row * Z :=
  (filter (fun r => negb (cond r)) rs, Z.of_nat (List.length (filter cond rs))).

(** [SELECT ... WHERE cond] through [Statement.get]: the first row found,
    if any. *)
Definition sql_get (cond : row -> bool) (rs : list row) : option row :=
  find cond rs.

(** [SELECT ... WHERE cond ORDER BY id ASC LIMIT 1] and its [DESC] twin,
    computed as a minimum (maximum) over the matching rows, in whatever
    order the table holds them. *)
Definition pick (better : Z -> Z -> bool) (acc : option row) (r : row)
  : option row :=
  match acc with
  | None => Some r
  | Some b => if better (id r) (id b) then Some r else Some b
  end.

Definition sql_get_order_by_id_asc (cond : row -> bool) (rs : list row)
  : option row :=
  fold_left (pick Z.ltb) (filter cond rs) None.

Definition sql_get_order_by_id_desc (cond : row -> bool) (rs : list row)
  : option row :=
  fold_left (pick Z.gtb) (filter cond rs) None.

(** [ORDER BY createTime DESC]: rows that tie on [createTime] keep the
    order of the table (SQL leaves the order of ties open). *)
Fixpoint insert_createTime_desc (r : row) (rs : list row) : list row :=
  match rs with
  | [] => [r]
  | x :: rs' =>
      if createTime x <=? createTime r then r :: x :: rs'
      else x :: insert_createTime_desc r rs'
  end.

Definition order_by_createTime_desc (rs : list row) : list row :=
  fold_right insert_createTime_desc [] rs.

(** [Statement.run] and [Statement.get] of better-sqlite3 refuse a call
    whose number of bound values differs from the number of [?] in the
    statement. *)
Definition bind_parameters (placeholders provided : nat) : option js_error :=
  if Nat.ltb provided placeholders
  then Some (RangeError "Too few parameter values were provided")
  else if Nat.ltb placeholders provided
  then Some (RangeError "Too many parameter values were provided")
  else None.

(** JavaScript's [Math.floor(a / b)] on integers: the quotient is not a
    finite number when [b] is zero. *)
Definition floor_div (a b : Z) : option Z :=
  if b =? 0 then None else Some (a / b).

(** ** The methods of [KVL] *)

Section Engine.

(** Whether an [INSERT OR IGNORE] that is ignored still uses up an id of the
    auto-increment counter.  It depends on the engine and on the schema of
    [makeDB]; nothing below depends on it. *)
Variable ignored_insert_takes_id : bool.

(** [INSERT OR IGNORE INTO kvl (createTime, updateTime, key, value)
    VALUES (?, ?, ?, ?)]: [key] is unique, so the row is added only when no
    row has that key; a new row gets the next id and no labels. *)
Definition insert_or_ignore (s : KVL) (ct ut : Z) (k v : string) : KVL :=
  if existsb (key_is k) (kvl_rows s)
  then mkKVL (expireTimeMs s) (kvl_rows s)
             (if ignored_insert_takes_id then kvl_seq s + 1 else kvl_seq s)
  else mkKVL (expireTimeMs s)
             (kvl_rows s ++ [mkRow (kvl_seq s + 1) k v None ct ut])
             (kvl_seq s + 1).

Definition with_rows (s : KVL) (rs : list row) : KVL :=
  mkKVL (expireTimeMs s) rs (kvl_seq s).

Definition set_value (v : string) (t : Z) (r : row) : row :=
  mkRow (id r) (key r) v (labels r) (createTime r) t.

Definition set_labels (l : string) (t : Z) (r : row) : row :=
  mkRow (id r) (key r) (value r) (Some l) (createTime r) t.

(** [set(key, value)] (the fluent [return this] is the new state). *)
Definition set (s : KVL) (k v : string) (now : Z) : KVL :=
  let time := now in
  let s1 := insert_or_ignore s time time k v in
  with_rows s1 (fst (sql_update (key_is k) (set_value v time) (kvl_rows s1))).

(** [get(key)]: [item?.value]. *)
Definition get (s : KVL) (k : string) : option string :=
  option_map value (sql_get (key_is k) (kvl_rows s)).

(** [push(name, value)]: the key it returns and the new state. *)
Definition push (s : KVL) (name v uuid : string) (now : Z) : string * KVL :=
  let k := (name ++ ":" ++ uuid)%string in
  (k, set s k v now).

(** [if (item?.id) deleteStmt.run(item.id)]: an id of 0 is falsy, so no
    statement runs for it. *)
Definition delete_item (s : KVL) (item : option row) : KVL :=
  match item with
  | None => s
  | Some it =>
      if id it =? 0 then s
      else with_rows s (fst (sql_delete (fun r => id r =? id it) (kvl_rows s)))
  end.

(** [pop(name)]. *)
Definition pop (s : KVL) (name : string) : option string * KVL :=
  let item := sql_get_order_by_id_desc (key_like name) (kvl_rows s) in
  (option_map value item, delete_item s item).

(** [shift(name)]. *)
Definition shift (s : KVL) (name : string) : option string * KVL :=
  let item := sql_get_order_by_id_asc (key_like name) (kvl_rows s) in
  (option_map value item, delete_item s item).

(** [all(name)]: the four selected columns of every row of the list. *)
Record all_item : Type := mkItem {
  item_createTime : Z;
  item_updateTime : Z;
  item_key : string;
  item_value : string
}.

Definition select_columns (r : row) : all_item :=
  mkItem (createTime r) (updateTime r) (key r) (value r).

Definition all (s : KVL) (name : string) : list all_item :=
  map select_columns
      (order_by_createTime_desc (filter (key_like name) (kvl_rows s))).

(** [tags(key)] and [tags(key, tags)]: one method, whose second argument is
    [None] for a read ([tags == null]). A read returns the [labels] column
    (which may be NULL); a write returns nothing. *)
Inductive tags_return : Type :=
| Labels (l : option string)
| Void.

Definition tags (s : KVL) (k : string) (tgs : option string) (now : Z)
  : outcome tags_return * KVL :=
  match tgs with
  | None =>
      match sql_get (key_is k) (kvl_rows s) with
      | None => (Thrown (Error "item does not exist"), s)
      | Some item => (Returned (Labels (labels item)), s)
      end
  | Some l =>
      let time := now in
      let result := sql_update (key_is k) (set_labels l time) (kvl_rows s) in
      if snd result <? 1
      then (Thrown (Error "item does not exist"), with_rows s (fst result))
      else (Returned Void, with_rows s (fst result))
  end.

(** [page]: its arguments, [None] standing for an argument left out. *)
Inductive tags_operator : Type := AND | OR.
Inductive order_by : Type := ByCreateTime | ByUpdateTime.
Inductive order_dir : Type := ASC | DESC.

(** The local variables of [page] when its body ends. [pages] is [None]
    when it is not a finite number. *)
Record page_locals : Type := mkLocals {
  total : Z;
  pages : option Z;
  pageNum : Z
}.

(** The number of [?] in the statement [selectStmt] builds: one for the
    name and one for each tag of a non-empty [tags]. *)
Definition page_placeholders (tgs : option (list string)) : nat :=
  match tgs with
  | None | Some [] => 1
  | Some l => S (List.length l)
  end.

(** The body of [page] up to its last line. [totalStmt.get(name)] binds one
    value, whatever [tags] holds. *)
Definition page_body (s : KVL) (name : string) (pageNum0 pageSize0 : option Z)
  (tgs : option (list string)) (tagsOperator : option tags_operator)
  (orderBy : option order_by) (orderDir : option order_dir)
  : outcome page_locals :=
  let pageNum1 := match pageNum0 with Some n => n | None => 1 end in
  let pageSize := match pageSize0 with Some n => n | None => 10 end in
  match bind_parameters (page_placeholders tgs) 1 with
  | Some e => Thrown e
  | None =>
      let total := Z.of_nat (List.length (filter (key_like name) (kvl_rows s))) in
      let lastOffset := if total >? 0 then total - 1 else 0 in
      let pages := option_map (fun q => q + 1) (floor_div lastOffset pageSize) in
      let pageNum2 :=
        match pages with
        | Some p => if pageNum1 >? p then p else pageNum1
        | None => pageNum1
        end in
      Returned (mkLocals total pages pageNum2)
  end.

(** The object the caller of [page] is promised by the design notes; the
    source never builds one. *)
Record page_view : Type := mkView {
  view_items : list row;
  view_total : Z;
  view_pages : Z;
  view_pageNum : Z
}.

(** [page]: the body has no [return], so a call that does not throw gives
    [undefined] ([None]). *)
Definition page (s : KVL) (name : string) (pageNum0 pageSize0 : option Z)
  (tgs : option (list string)) (tagsOperator : option tags_operator)
  (orderBy : option order_by) (orderDir : option order_dir)
  : outcome (option page_view) :=
  match page_body s name pageNum0 pageSize0 tgs tagsOperator orderBy orderDir with
  | Thrown e => Thrown e
  | Returned _ => Returned None
  end.

(** [expire()]: [!this.expireTimeMs] holds when the argument was left out
    and also when it is 0. [VACUUM] leaves the rows as they are. *)
Definition expire (s : KVL) (now : Z) : KVL :=
  match expireTimeMs s with
  | None => s
  | Some e =>
      if e =? 0 then s
      else with_rows s
             (fst (sql_delete (fun r => updateTime r <=? now - e) (kvl_rows s)))
  end.

End Engine.

Arguments set_value v t r : simpl never.
Arguments set_labels l t r : simpl never.

(** ** Invariant of the table *)

Definition id_lt (a b : row) : Prop := id a < id b.

(** Modelled from the spec: the constraints of the schema that [makeDB]
    (absent from the sources) declares, as a predicate on states: keys are
    unique; the rows are held in the order of their ids, the primary key;
    every id is at least 1 and at most the auto-increment counter, which
    starts at 0. *)
Record table_ok (s : KVL) : Prop := mkOk {
  ok_keys : NoDup (map key (kvl_rows s));
  ok_sorted : StronglySorted id_lt (kvl_rows s);
  ok_ids : Forall (fun r => 1 <= id r <= kvl_seq s) (kvl_rows s);
  ok_seq : 0 <= kvl_seq s
}.

(** The members of the list [name], in the order of the table. *)
Definition members (s : KVL) (name : string) : list row :=
  filter (key_like name) (kvl_rows s).

(** A state to run the operations on: a plain key and a list [q] of two
    members, with expiry after 100 ms. *)
Definition demo : KVL :=
  mkKVL (Some 100)
        [ mkRow 1 "color" "red" (Some "a,b") 10 10;
          mkRow 2 "q:u1" "first" None 20 20;
          mkRow 4 "q:u2" "second" (Some "x") 30 35 ]
        4.

(** ** Names of lists *)

(** The name of a list goes into the pattern of [LIKE] as it is. These are
    the names for which the pattern means "starts with the name and a
    colon": names without [%] and [_], which the pattern would read as
    wildcards, and without a colon of their own. *)
Fixpoint string_forallb (f : ascii -> bool) (n : string) : bool :=
  match n with
  | EmptyString => true
  | String c n' => f c && string_forallb f n'
  end.

Definition no_colon (n : string) : bool :=
  string_forallb (fun c => negb (Ascii.eqb c ":")) n.

Definition plain_name (n : string) : bool :=
  string_forallb
    (fun c => negb (Ascii.eqb c ":") && negb (Ascii.eqb c "%")
              && negb (Ascii.eqb c "_")) n.

(** A string without NUL. *)
Definition no_nul (n : string) : bool :=
  string_forallb (fun c => negb (Ascii.eqb c zero)) n.

(** A name with its letters A-Z folded, as [LIKE] compares it. *)
Fixpoint lower (n : string) : string :=
  match n with
  | EmptyString => EmptyString
  | String c n' => String (to_lower c) (lower n')
  end.

(** A store whose expiry time was given as 0, holding one old record. *)
Definition expiry_zero : KVL :=
  mkKVL (Some 0) [mkRow 1 "k" "v" None 5 5] 1.

(** ** Sequences of calls *)

(** What one [push] of a sequence carries: the value, the uuid that
    [crypto.randomUUID()] gave and the time that [Date.now()] gave. *)
Definition pushed_value (it : string * string * Z) : string := fst (fst it).
Definition pushed_uuid (it : string * string * Z) : string := snd (fst it).

Section Runs.

Variable takes_id : bool.

(** One [push] to [name] for each element of [items], in order; an element
    holds the value, the uuid drawn for it and the time of the call. *)
Fixpoint push_all (s : KVL) (name : string) (items : list (string * string * Z))
  : KVL :=
  match items with
  | [] => s
  | (v, uuid, now) :: rest => push_all (snd (push takes_id s name v uuid now)) name rest
  end.

(** [n] consecutive calls of [shift] (of [pop]) on [name]: what each call
    returned, in order, and the final state. *)
Fixpoint shift_n (n : nat) (s : KVL) (name : string) : list (option string) * KVL :=
  match n with
  | O => ([], s)
  | S n' =>
      let (v, s1) := shift s name in
      let (vs, s2) := shift_n n' s1 name in
      (v :: vs, s2)
  end.

Fixpoint pop_n (n : nat) (s : KVL) (name : string) : list (option string) * KVL :=
  match n with
  | O => ([], s)
  | S n' =>
      let (v, s1) := pop s name in
      let (vs, s2) := pop_n n' s1 name in
      (v :: vs, s2)
  end.

(** A call of any public method that reaches the table, and its effect on
    the state. *)
Inductive call : Type :=
| CallSet (k v : string) (now : Z)
| CallGet (k : string)
| CallPush (name v uuid : string) (now : Z)
| CallPop (name : string)
| CallShift (name : string)
| CallAll (name : string)
| CallTags (k : string) (tgs : option string) (now : Z)
| CallPage (name : string) (pageNum pageSize : option Z)
           (tgs : option (list string)) (tagsOperator : option tags_operator)
           (orderBy : option order_by) (orderDir : option order_dir)
| CallExpire (now : Z).

Definition exec (s : KVL) (c : call) : KVL :=
  match c with
  | CallSet k v now => set takes_id s k v now
  | CallGet _ => s
  | CallPush name v uuid now => snd (push takes_id s name v uuid now)
  | CallPop name => snd (pop s name)
  | CallShift name => snd (shift s name)
  | CallAll _ => s
  | CallTags k tgs now => snd (tags s k tgs now)
  | CallPage _ _ _ _ _ _ _ => s
  | CallExpire now => expire s now
  end.

Definition run (s : KVL) (cs : list call) : KVL := fold_left exec cs s.

End Runs.

(** The row of a given id, if the table has one. *)
Definition row_of_id (s : KVL) (i : Z) : option row :=
  find (fun r => id r =? i) (kvl_rows s).

(** [later s s']: every row of [s'] either stands for a row of [s] with the
    same id, key and creation time, or carries an id that the counter of [s]
    had not reached. *)
Definition later (s s' : KVL) : Prop :=
  kvl_seq s <= kvl_seq s'
  /\ forall r', In r' (kvl_rows s') ->
       (exists r, In r (kvl_rows s) /\ id r = id r' /\ key r = key r'
                  /\ createTime r = createTime r')
       \/ kvl_seq s < id r'.

(** Whether the statements of [pop], [shift], [all] and [page] throw on
    this state and name instead of selecting: the pattern is too long and
    the table has a row to evaluate [LIKE] on. *)
Definition like_throws (s : KVL) (name : string) : bool :=
  like_pattern_too_complex name
  && match kvl_rows s with [] => false | _ :: _ => true end.

(** ** Opening a store *)

(** A name without the wildcards of [LIKE]. *)
Definition no_wildcard (n : string) : bool :=
  string_forallb
    (fun c => negb (Ascii.eqb c "%") && negb (Ascii.eqb c "_")) n.

(** The constructor, up to the timer it starts: [file] is the table the
    file holds ([None] when the file does not exist, in which case [makeDB]
    creates it), and the first [expire()] runs at once. The timer then calls
    [expire()] again and again, which is [CallExpire] in a run.

    Modelled from the spec: the table that [makeDB] (absent from the
    sources) leaves in a file it creates, which is empty, its counter
    at 0. *)
Definition new_KVL (file : option (list row * Z)) (expireTimeMs0 : option Z)
  (now : Z) : KVL :=
  let table := match file with Some t => t | None => ([], 0) end in
  expire (mkKVL expireTimeMs0 (fst table) (snd table)) now.

(** The order [ORDER BY createTime DESC] asks for, on the items of [all]. *)
Definition createTime_ge (a b : all_item) : Prop :=
  item_createTime b <= item_createTime a.

(** ** Facts about strings and [LIKE] *)

Lemma pattern_compare_cons (c : ascii) (p s : string) :
  pattern_compare (String c p) s =
  if Ascii.eqb c "%" then
    pattern_compare p s
    || match s with EmptyString => false | String _ s' => pattern_compare (String c p) s' end
  else if Ascii.eqb c "_" then
    match s with EmptyString => false | String _ s' => pattern_compare p s' end
  else
    match s with
    | EmptyString => false
    | String d s' => Ascii.eqb (to_lower c) (to_lower d) && pattern_compare p s'
    end.
Proof.
  simpl. destruct (Ascii.eqb c "%"); [destruct s; reflexivity|].
  destruct (Ascii.eqb c "_"); reflexivity.
Qed.

Lemma pattern_compare_percent (s : string) : pattern_compare "%" s = true.
Proof.
  induction s as [|d s IH].
  - reflexivity.
  - rewrite pattern_compare_cons. change (Ascii.eqb "%" "%") with true. cbv iota.
    rewrite IH. apply orb_true_r.
Qed.

(** A pattern matches every string that starts with the pattern's own
    characters, whichever of them are wildcards. *)
Lemma pattern_compare_app (p q s : string) :
  pattern_compare q s = true -> pattern_compare (p ++ q) (p ++ s) = true.
Proof.
  intros H. induction p as [|c p IH]; [exact H|].
  change (pattern_compare (String c (p ++ q)) (String c (p ++ s)) = true).
  rewrite pattern_compare_cons.
  destruct (Ascii.eqb c "%") eqn:E1.
  - apply orb_true_iff. right.
    rewrite pattern_compare_cons, E1, IH. reflexivity.
  - destruct (Ascii.eqb c "_"); [exact IH|].
    rewrite Ascii.eqb_refl, IH. reflexivity.
Qed.

Lemma key_like_pushed (name uuid : string) (r : row) :
  key r = (name ++ ":" ++ uuid)%string -> key_like name r = true.
Proof.
  intros E. unfold key_like, sql_like. rewrite E. clear E.
  induction name as [|c name IH].
  - change (pattern_compare (String ":" "%") (String ":" (c_str uuid)) = true).
    rewrite pattern_compare_cons.
    change (pattern_compare "%" (c_str uuid) = true). apply pattern_compare_percent.
  - cbn [append c_str]. destruct (Ascii.eqb c zero); [reflexivity|].
    apply (pattern_compare_app (String c EmptyString)). exact IH.
Qed.

Lemma append_inj_r (p a b : string) : (p ++ a = p ++ b)%string -> a = b.
Proof.
  induction p as [|c p IH]; simpl; intros H; [exact H|].
  injection H as H. auto.
Qed.

(** ** Facts about the SQL operators *)

Lemma filter_filter_comm {A} (f g : A -> bool) (l : list A) :
  filter f (filter g l) = filter g (filter f l).
Proof.
  induction l as [|a l IH]; simpl; [reflexivity|].
  destruct (f a) eqn:Ef, (g a) eqn:Eg; simpl; rewrite ?Ef, ?Eg, IH; reflexivity.
Qed.

Lemma filter_all_true {A} (f : A -> bool) (l : list A) :
  Forall (fun a => f a = true) l -> filter f l = l.
Proof.
  induction 1 as [|a l Ha _ IH]; simpl; [reflexivity|].
  rewrite Ha, IH. reflexivity.
Qed.

Lemma filter_all_false {A} (f : A -> bool) (l : list A) :
  Forall (fun a => f a = false) l -> filter f l = [].
Proof.
  induction 1 as [|a l Ha _ IH]; simpl; [reflexivity|].
  rewrite Ha, IH. reflexivity.
Qed.

Lemma sorted_filter (f : row -> bool) (l : list row) :
  StronglySorted id_lt l -> StronglySorted id_lt (filter f l).
Proof.
  induction 1 as [|a l _ IH Ha]; simpl; [constructor|].
  destruct (f a); [|exact IH].
  constructor; [exact IH|].
  apply Forall_forall. intros x Hx. apply filter_In in Hx.
  rewrite Forall_forall in Ha. apply Ha. tauto.
Qed.

Lemma sorted_app_inv (l : list row) (x : row) :
  StronglySorted id_lt (l ++ [x]) -> Forall (fun r => id r < id x) l.
Proof.
  induction l as [|a l IH]; simpl; intros H; [constructor|].
  inversion H as [|? ? Hs Ha]; subst.
  constructor; [|auto].
  rewrite Forall_forall in Ha. apply Ha, in_or_app. right. left. reflexivity.
Qed.

Lemma sorted_snoc (l : list row) (x : row) :
  StronglySorted id_lt l -> Forall (fun r => id r < id x) l ->
  StronglySorted id_lt (l ++ [x]).
Proof.
  induction 1 as [|a l _ IH Ha]; simpl; intros Hx.
  - repeat constructor.
  - inversion Hx; subst. constructor; [auto|].
    apply Forall_app. split; [exact Ha|]. repeat constructor. assumption.
Qed.

(** Under the order of the table, the row of least id that satisfies a
    condition is the first such row, and the one of greatest id the last. *)
Lemma pick_lt_keeps (b : row) (l : list row) :
  Forall (fun r => id b < id r) l ->
  fold_left (pick Z.ltb) l (Some b) = Some b.
Proof.
  induction 1 as [|a l Ha _ IH]; simpl; [reflexivity|].
  replace (id a <? id b) with false by (symmetry; apply Z.ltb_ge; lia).
  exact IH.
Qed.

Lemma get_asc_first (cond : row -> bool) (rs : list row) :
  StronglySorted id_lt rs ->
  sql_get_order_by_id_asc cond rs = hd_error (filter cond rs).
Proof.
  intros H. apply (sorted_filter cond) in H.
  unfold sql_get_order_by_id_asc.
  destruct (filter cond rs) as [|a l]; [reflexivity|].
  inversion H; subst. simpl. apply pick_lt_keeps. assumption.
Qed.

Lemma pick_gt_last (l : list row) (x : row) (acc : option row) :
  Forall (fun r => id r < id x) l ->
  match acc with Some b => id b < id x | None => True end ->
  fold_left (pick Z.gtb) (l ++ [x]) acc = Some x.
Proof.
  intros Hl. revert acc.
  induction Hl as [|a l Ha _ IH]; intros acc Hacc; simpl.
  - destruct acc as [b|]; simpl; [|reflexivity].
    replace (id x >? id b) with true by (symmetry; apply Z.gtb_lt; lia).
    reflexivity.
  - apply IH. destruct acc as [b|]; simpl; [|exact Ha].
    destruct (id a >? id b); assumption.
Qed.

Lemma get_desc_last (cond : row -> bool) (rs ms : list row) (m : row) :
  StronglySorted id_lt rs ->
  filter cond rs = ms ++ [m] ->
  sql_get_order_by_id_desc cond rs = Some m.
Proof.
  intros H E. apply (sorted_filter cond) in H.
  unfold sql_get_order_by_id_desc. rewrite E in *.
  apply pick_gt_last; [apply sorted_app_inv; exact H|exact I].
Qed.

Lemma existsb_key_is (k : string) (rs : list row) :
  existsb (key_is k) rs = true <-> In k (map key rs).
Proof.
  rewrite existsb_exists, in_map_iff. unfold key_is.
  split; intros [r [H1 H2]]; exists r.
  - apply String.eqb_eq in H2. tauto.
  - split; [tauto|]. apply String.eqb_eq. tauto.
Qed.

Lemma update_untouched (cond : row -> bool) (f : row -> row) (rs : list row) :
  Forall (fun r => cond r = false) rs ->
  map (fun r => if cond r then f r else r) rs = rs.
Proof.
  induction 1 as [|a l Ha _ IH]; simpl; [reflexivity|].
  rewrite Ha, IH. reflexivity.
Qed.

Lemma map_key_update (cond : row -> bool) (f : row -> row) (rs : list row) :
  (forall r, key (f r) = key r) ->
  map key (map (fun r => if cond r then f r else r) rs) = map key rs.
Proof.
  intros Hf. rewrite map_map. apply map_ext.
  intros r. destruct (cond r); auto.
Qed.

Lemma sorted_update (cond : row -> bool) (f : row -> row) (rs : list row) :
  (forall r, id (f r) = id r) ->
  StronglySorted id_lt rs ->
  StronglySorted id_lt (map (fun r => if cond r then f r else r) rs).
Proof.
  intros Hf. set (g := fun r => if cond r then f r else r).
  assert (Hg : forall r, id (g r) = id r) by (intros r; unfold g; destruct (cond r); auto).
  induction 1 as [|a l _ IH Ha]; simpl; constructor; [exact IH|].
  apply Forall_map. revert Ha. apply Forall_impl.
  intros r. unfold id_lt. rewrite !Hg. auto.
Qed.

Lemma nodup_map_filter {A B} (g : A -> B) (f : A -> bool) (l : list A) :
  NoDup (map g l) -> NoDup (map g (filter f l)).
Proof.
  induction l as [|a l IH]; simpl; intros H; [constructor|].
  inversion H as [|? ? Hn Hd]; subst.
  destruct (f a); simpl; [|auto].
  constructor; [|auto].
  intros Hin. apply Hn. apply in_map_iff in Hin. destruct Hin as [x [E Hx]].
  apply in_map_iff. exists x. apply filter_In in Hx. tauto.
Qed.

(** ** The invariant is kept by every method *)

Section Invariant.

Variable takes_id : bool.

Lemma ok_with_filter (s : KVL) (f : row -> bool) :
  table_ok s -> table_ok (with_rows s (filter f (kvl_rows s))).
Proof.
  intros [Hk Hs Hi Hq]. constructor; simpl.
  - apply nodup_map_filter, Hk.
  - apply sorted_filter, Hs.
  - apply Forall_forall. intros r Hr. apply filter_In in Hr.
    rewrite Forall_forall in Hi. apply Hi. tauto.
  - exact Hq.
Qed.

Lemma ok_with_update (s : KVL) (cond : row -> bool) (f : row -> row) :
  (forall r, key (f r) = key r) -> (forall r, id (f r) = id r) ->
  table_ok s ->
  table_ok (with_rows s (fst (sql_update cond f (kvl_rows s)))).
Proof.
  intros Hkey Hid [Hk Hs Hi Hq]. constructor; simpl.
  - rewrite map_key_update; assumption.
  - apply sorted_update; assumption.
  - apply Forall_map. revert Hi. apply Forall_impl.
    intros r. destruct (cond r); rewrite ?Hid; auto.
  - exact Hq.
Qed.

Lemma ok_insert_or_ignore (s : KVL) (ct ut : Z) (k v : string) :
  table_ok s -> table_ok (insert_or_ignore takes_id s ct ut k v).
Proof.
  intros [Hk Hs Hi Hq]. unfold insert_or_ignore.
  destruct (existsb (key_is k) (kvl_rows s)) eqn:E.
  - constructor; simpl; try assumption.
    + revert Hi. apply Forall_impl. intros r. destruct takes_id; lia.
    + destruct takes_id; lia.
  - constructor; simpl.
    + rewrite map_app. simpl.
      apply NoDup_app; [exact Hk|repeat constructor; intros []|].
      intros x Hx [<-|[]].
      apply existsb_key_is in Hx. congruence.
    + apply sorted_snoc; [exact Hs|].
      revert Hi. apply Forall_impl. simpl. intros r. lia.
    + apply Forall_app. split.
      * revert Hi. apply Forall_impl. intros r. lia.
      * repeat constructor; simpl; lia.
    + lia.
Qed.

Lemma ok_set (s : KVL) (k v : string) (now : Z) :
  table_ok s -> table_ok (set takes_id s k v now).
Proof.
  intros H. unfold set.
  apply ok_with_update; [reflexivity|reflexivity|].
  apply ok_insert_or_ignore, H.
Qed.

Lemma ok_delete_item (s : KVL) (item : option row) :
  table_ok s -> table_ok (delete_item s item).
Proof.
  intros H. unfold delete_item.
  destruct item as [it|]; [|exact H].
  destruct (id it =? 0); [exact H|].
  apply ok_with_filter, H.
Qed.

Lemma ok_pop (s : KVL) (name : string) :
  table_ok s -> table_ok (snd (pop s name)).
Proof. apply ok_delete_item. Qed.

Lemma ok_shift (s : KVL) (name : string) :
  table_ok s -> table_ok (snd (shift s name)).
Proof. apply ok_delete_item. Qed.

Lemma ok_tags (s : KVL) (k : string) (tgs : option string) (now : Z) :
  table_ok s -> table_ok (snd (tags s k tgs now)).
Proof.
  intros H. unfold tags. destruct tgs as [l|].
  - destruct (snd _ <? 1); simpl;
      apply ok_with_update; auto.
  - destruct (sql_get _ _); exact H.
Qed.

Lemma ok_expire (s : KVL) (now : Z) : table_ok s -> table_ok (expire s now).
Proof.
  intros H. unfold expire.
  destruct (expireTimeMs s) as [e|]; [|exact H].
  destruct (e =? 0); [exact H|].
  apply ok_with_filter, H.
Qed.

(** *** What [set] does to the rows *)

(** On a key that no row has, [set] appends one row and changes no other. *)
Lemma set_fresh (s : KVL) (k v : string) (now : Z) :
  ~ In k (map key (kvl_rows s)) ->
  set takes_id s k v now =
  mkKVL (expireTimeMs s)
        (kvl_rows s ++ [mkRow (kvl_seq s + 1) k v None now now])
        (kvl_seq s + 1).
Proof.
  intros Hk. unfold set, insert_or_ignore.
  destruct (existsb (key_is k) (kvl_rows s)) eqn:E.
  - apply existsb_key_is in E. contradiction.
  - unfold with_rows, sql_update. simpl. f_equal.
    rewrite map_app. simpl. f_equal.
    + apply update_untouched. apply Forall_forall. intros r Hr.
      destruct (key_is k r) eqn:Er; [|reflexivity].
      exfalso. apply Hk. apply existsb_key_is, existsb_exists. eauto.
    + unfold key_is. simpl. rewrite String.eqb_refl. reflexivity.
Qed.

(** On a key that a row has, [set] adds no row: it rewrites the value and
    the update time of the rows with that key. *)
Lemma set_existing (s : KVL) (k v : string) (now : Z) :
  In k (map key (kvl_rows s)) ->
  kvl_rows (set takes_id s k v now) =
  map (fun r => if key_is k r then set_value v now r else r) (kvl_rows s).
Proof.
  intros Hk. unfold set, insert_or_ignore.
  apply existsb_key_is in Hk. rewrite Hk. reflexivity.
Qed.

End Invariant.

(** ** [set] *)

Lemma filter_key_unique (k : string) (rs : list row) :
  NoDup (map key rs) -> In k (map key rs) ->
  exists r, filter (key_is k) rs = [r] /\ key r = k.
Proof.
  induction rs as [|a rs IH]; simpl; intros Hd Hin; [contradiction|].
  inversion Hd as [|? ? Hn Hd']; subst.
  unfold key_is at 1. destruct (String.eqb_spec (key a) k) as [E|E].
  - exists a. split; [|exact E]. f_equal.
    apply filter_all_false, Forall_forall. intros r Hr.
    unfold key_is. apply String.eqb_neq. intros E'.
    apply Hn. rewrite E, <- E'. apply in_map, Hr.
  - destruct Hin as [Hin|Hin]; [contradiction|]. auto.
Qed.

Lemma filter_key_absent (k : string) (rs : list row) :
  ~ In k (map key rs) -> filter (key_is k) rs = [].
Proof.
  intros H. apply filter_all_false, Forall_forall. intros r Hr.
  unfold key_is. apply String.eqb_neq. intros E. apply H.
  rewrite <- E. apply in_map, Hr.
Qed.

Lemma filter_map_commute (cond : row -> bool) (g : row -> row) (rs : list row) :
  (forall r, cond (g r) = cond r) ->
  filter cond (map g rs) = map g (filter cond rs).
Proof.
  intros Hg. induction rs as [|a rs IH]; simpl; [reflexivity|].
  rewrite Hg. destruct (cond a); simpl; rewrite IH; reflexivity.
Qed.

(** After [set(k, v)] at time [now], the rows with key [k] are one row,
    which holds [v] and was updated at [now]. *)
Lemma set_one_row (takes_id : bool) (s : KVL) (k v : string) (now : Z) :
  table_ok s ->
  exists r, filter (key_is k) (kvl_rows (set takes_id s k v now)) = [r]
            /\ key r = k /\ value r = v /\ updateTime r = now.
Proof.
  intros Hok.
  destruct (in_dec string_dec k (map key (kvl_rows s))) as [Hin|Hout].
  - rewrite set_existing by exact Hin.
    destruct (filter_key_unique k _ (ok_keys _ Hok) Hin) as [r0 [E0 K0]].
    exists (set_value v now r0).
    rewrite filter_map_commute, E0.
    + simpl. unfold key_is. rewrite K0, String.eqb_refl. auto.
    + intros r. destruct (key_is k r) eqn:Er; exact Er.
  - rewrite set_fresh by exact Hout. simpl.
    exists (mkRow (kvl_seq s + 1) k v None now now).
    rewrite filter_app, filter_key_absent by exact Hout.
    simpl. unfold key_is. simpl. rewrite String.eqb_refl. auto.
Qed.

(** C1. After [set(k, v)] exactly one record has key [k]; it holds [v] and
    its [updateTime] is the time of the call. After a second [set(k, v)]
    with the same value there is still exactly one record with key [k]; it
    holds [v] and its [updateTime] is the time of the second call, which is
    the later of the two times when the clock did not go back. *)
Theorem set_upsert (takes_id : bool) (s : KVL) (k v : string) (t1 t2 : Z) :
  table_ok s ->
  let s1 := set takes_id s k v t1 in
  let s2 := set takes_id s1 k v t2 in
  (exists r1, filter (key_is k) (kvl_rows s1) = [r1]
              /\ value r1 = v /\ updateTime r1 = t1)
  /\ (exists r2, filter (key_is k) (kvl_rows s2) = [r2]
                 /\ value r2 = v /\ updateTime r2 = t2
                 /\ (t1 <= t2 -> updateTime r2 = Z.max t1 t2))
  /\ get s1 k = Some v /\ get s2 k = Some v.
Proof.
  intros Hok s1 s2.
  destruct (set_one_row takes_id s k v t1 Hok) as [r1 [E1 [K1 [V1 U1]]]].
  destruct (set_one_row takes_id s1 k v t2 (ok_set takes_id s k v t1 Hok))
    as [r2 [E2 [K2 [V2 U2]]]].
  assert (G : forall s' r, filter (key_is k) (kvl_rows s') = [r] ->
                           get s' k = Some (value r)).
  { intros s' r E. unfold get, sql_get.
    destruct (find (key_is k) (kvl_rows s')) as [x|] eqn:F.
    - pose proof (find_some _ _ F) as [Hx1 Hx2].
      assert (Hin : In x (filter (key_is k) (kvl_rows s'))) by (apply filter_In; auto).
      rewrite E in Hin. destruct Hin as [<-|[]]. reflexivity.
    - assert (Hin : In r (filter (key_is k) (kvl_rows s'))) by (rewrite E; left; reflexivity).
      apply filter_In in Hin. destruct Hin as [Hin Hc].
      rewrite (find_none _ _ F r Hin) in Hc. discriminate. }
  split; [exists r1; auto|].
  split; [exists r2; repeat split; auto; intros; lia|].
  fold s1 in E1. fold s2 in E2.
  rewrite (G s1 r1 E1), (G s2 r2 E2), V1, V2. auto.
Qed.

Lemma demo_ok : table_ok demo.
Proof.
  constructor; simpl.
  - repeat constructor; simpl; intuition discriminate.
  - repeat constructor; unfold id_lt; simpl; lia.
  - repeat constructor; simpl; lia.
  - lia.
Qed.

Lemma set_upsert_witness :
  table_ok demo
  /\ get (set true (set true demo "color" "blue" 50) "color" "blue" 60) "color"
     = Some "blue".
Proof.
  split; [exact demo_ok|].
  exact (proj2 (proj2 (proj2 (set_upsert true demo "color" "blue" 50 60 demo_ok)))).
Defined.

(** ** [push], [shift] and [pop] *)

Section Lists.

Variable takes_id : bool.

Lemma members_push_fresh (s : KVL) (name v uuid : string) (now : Z) :
  ~ In (name ++ ":" ++ uuid)%string (map key (kvl_rows s)) ->
  members (snd (push takes_id s name v uuid now)) name =
  members s name ++ [mkRow (kvl_seq s + 1) (name ++ ":" ++ uuid) v None now now].
Proof.
  intros H. unfold push, members. cbn [snd].
  rewrite set_fresh by exact H. simpl.
  rewrite filter_app. simpl.
  rewrite (key_like_pushed name uuid) by reflexivity. reflexivity.
Qed.

Lemma keys_push_fresh (s : KVL) (name v uuid : string) (now : Z) :
  ~ In (name ++ ":" ++ uuid)%string (map key (kvl_rows s)) ->
  map key (kvl_rows (snd (push takes_id s name v uuid now))) =
  map key (kvl_rows s) ++ [(name ++ ":" ++ uuid)%string].
Proof.
  intros H. unfold push. cbn [snd].
  rewrite set_fresh by exact H. simpl.
  rewrite map_app. reflexivity.
Qed.

(** Pushing with uuids that are new for the list and pairwise distinct
    appends one member per push, in the order of the pushes. *)
Lemma members_push_all (items : list (string * string * Z)) :
  forall (s : KVL) (name : string),
  table_ok s ->
  NoDup (map pushed_uuid items) ->
  (forall it, In it items ->
              ~ In (name ++ ":" ++ pushed_uuid it)%string (map key (kvl_rows s))) ->
  table_ok (push_all takes_id s name items)
  /\ exists added,
      members (push_all takes_id s name items) name = members s name ++ added
      /\ map value added = map pushed_value items.
Proof.
  induction items as [|[[v u] t] items IH]; intros s name Hok Hd Hnew.
  - split; [exact Hok|]. exists []. simpl. rewrite app_nil_r. auto.
  - cbn [push_all]. simpl in Hd. inversion Hd as [|? ? Hu Hd']; subst.
    assert (Hfresh : ~ In (name ++ ":" ++ u)%string (map key (kvl_rows s))).
    { apply (Hnew (v, u, t)). left. reflexivity. }
    pose proof (keys_push_fresh s name v u t Hfresh) as K.
    pose proof (members_push_fresh s name v u t Hfresh) as M.
    destruct (IH (snd (push takes_id s name v u t)) name) as [Hok' [added [E V]]].
    + apply ok_set, Hok.
    + exact Hd'.
    + intros it Hit. rewrite K. intros Hin. apply in_app_or in Hin.
      destruct Hin as [Hin|[Hin|[]]].
      * apply (Hnew it); [right; exact Hit|exact Hin].
      * apply append_inj_r in Hin. injection Hin as Hin.
        apply Hu. change (In u (map pushed_uuid items)).
        rewrite Hin. apply in_map, Hit.
    + split; [exact Hok'|].
      rewrite M in E.
      eexists. rewrite E, <- app_assoc. split; [reflexivity|].
      simpl. rewrite V. reflexivity.
Qed.

Lemma member_id_nonzero (s : KVL) (name : string) (m : row) :
  table_ok s -> In m (members s name) -> (id m =? 0) = false.
Proof.
  intros Hok Hin. apply filter_In in Hin. destruct Hin as [Hin _].
  pose proof (ok_ids _ Hok) as Hi. rewrite Forall_forall in Hi.
  apply Z.eqb_neq. specialize (Hi m Hin). lia.
Qed.

Lemma members_delete (s : KVL) (name : string) (i : Z) :
  members (with_rows s (fst (sql_delete (fun r => id r =? i) (kvl_rows s)))) name =
  filter (fun r => negb (id r =? i)) (members s name).
Proof. unfold members. simpl. apply filter_filter_comm. Qed.

(** [shift] returns the value of the first member and removes that member
    and no other. *)
Lemma shift_members (s : KVL) (name : string) (m : row) (ms : list row) :
  table_ok s -> members s name = m :: ms ->
  fst (shift s name) = Some (value m)
  /\ members (snd (shift s name)) name = ms.
Proof.
  intros Hok E. unfold shift. cbn [fst snd].
  rewrite (get_asc_first _ _ (ok_sorted _ Hok)).
  fold (members s name). rewrite E. cbn [hd_error option_map].
  split; [reflexivity|].
  unfold delete_item.
  rewrite (member_id_nonzero s name m Hok) by (rewrite E; left; reflexivity).
  rewrite members_delete, E. cbn [filter].
  rewrite Z.eqb_refl. cbn [negb].
  apply filter_all_true.
  pose proof (sorted_filter (key_like name) _ (ok_sorted _ Hok)) as Hs.
  fold (members s name) in Hs. rewrite E in Hs. inversion Hs as [|? ? _ Hlt]; subst.
  revert Hlt. apply Forall_impl. unfold id_lt. intros r Hr.
  apply negb_true_iff, Z.eqb_neq. lia.
Qed.

(** [pop] returns the value of the last member and removes that member and
    no other. *)
Lemma pop_members (s : KVL) (name : string) (m : row) (ms : list row) :
  table_ok s -> members s name = ms ++ [m] ->
  fst (pop s name) = Some (value m)
  /\ members (snd (pop s name)) name = ms.
Proof.
  intros Hok E. unfold pop. cbn [fst snd].
  rewrite (get_desc_last _ _ ms m (ok_sorted _ Hok) E). cbn [option_map].
  split; [reflexivity|].
  unfold delete_item.
  rewrite (member_id_nonzero s name m Hok)
    by (rewrite E; apply in_or_app; right; left; reflexivity).
  rewrite members_delete, E, filter_app. cbn [filter].
  rewrite Z.eqb_refl. cbn [negb]. rewrite app_nil_r.
  apply filter_all_true.
  pose proof (sorted_filter (key_like name) _ (ok_sorted _ Hok)) as Hs.
  fold (members s name) in Hs. rewrite E in Hs. apply sorted_app_inv in Hs.
  revert Hs. apply Forall_impl. intros r Hr.
  apply negb_true_iff, Z.eqb_neq. lia.
Qed.

Lemma shift_empty (s : KVL) (name : string) :
  members s name = [] -> shift s name = (None, s).
Proof.
  unfold shift, sql_get_order_by_id_asc, members. intros ->. reflexivity.
Qed.

Lemma pop_empty (s : KVL) (name : string) :
  members s name = [] -> pop s name = (None, s).
Proof.
  unfold pop, sql_get_order_by_id_desc, members. intros ->. reflexivity.
Qed.

Lemma shift_n_members (ms : list row) :
  forall (s : KVL) (name : string),
  table_ok s -> members s name = ms ->
  fst (shift_n (List.length ms) s name) = map (fun r => Some (value r)) ms
  /\ members (snd (shift_n (List.length ms) s name)) name = [].
Proof.
  induction ms as [|m ms IH]; intros s name Hok E.
  - simpl. auto.
  - cbn [List.length shift_n map].
    destruct (shift_members s name m ms Hok E) as [V M].
    destruct (shift s name) as [v s1] eqn:Es. simpl in V, M.
    assert (Hok1 : table_ok s1).
    { pose proof (ok_shift s name Hok) as H. rewrite Es in H. exact H. }
    destruct (IH s1 name Hok1 M) as [V' M'].
    destruct (shift_n (List.length ms) s1 name) as [vs s2]. simpl in *.
    subst. auto.
Qed.

Lemma pop_n_members (ms : list row) :
  forall (s : KVL) (name : string),
  table_ok s -> members s name = ms ->
  fst (pop_n (List.length ms) s name) = map (fun r => Some (value r)) (rev ms)
  /\ members (snd (pop_n (List.length ms) s name)) name = [].
Proof.
  induction ms as [|m ms IH] using rev_ind; intros s name Hok E.
  - simpl. auto.
  - rewrite length_app, Nat.add_comm, rev_app_distr.
    cbn [List.length Nat.add pop_n rev app map].
    destruct (pop_members s name m ms Hok E) as [V M].
    destruct (pop s name) as [v s1] eqn:Es. simpl in V, M.
    assert (Hok1 : table_ok s1).
    { pose proof (ok_pop s name Hok) as H. rewrite Es in H. exact H. }
    destruct (IH s1 name Hok1 M) as [V' M'].
    destruct (pop_n (List.length ms) s1 name) as [vs s2]. simpl in *.
    subst. auto.
Qed.

End Lists.

Lemma order_by_length (rs : list row) :
  List.length (order_by_createTime_desc rs) = List.length rs.
Proof.
  assert (H : forall r l, List.length (insert_createTime_desc r l) = S (List.length l)).
  { intros r l. induction l as [|x l IH]; simpl; [reflexivity|].
    destruct (createTime x <=? createTime r); simpl; [reflexivity|].
    rewrite IH. reflexivity. }
  induction rs as [|r rs IH]; simpl; [reflexivity|].
  rewrite H, IH. reflexivity.
Qed.

(** [all(name)] is empty exactly when the list has no member. *)
Lemma all_nil_members (s : KVL) (name : string) :
  all s name = [] <-> members s name = [].
Proof.
  unfold all. fold (members s name). split; intros H.
  - apply (f_equal (@List.length _)) in H.
    rewrite length_map, order_by_length in H.
    destruct (members s name); [reflexivity|discriminate].
  - rewrite H. reflexivity.
Qed.

(** No row of an empty list can hold a key that [push] builds for it. *)
Lemma empty_list_fresh (s : KVL) (name uuid : string) :
  members s name = [] ->
  ~ In (name ++ ":" ++ uuid)%string (map key (kvl_rows s)).
Proof.
  intros E Hin. apply in_map_iff in Hin. destruct Hin as [r [K Hr]].
  assert (H : In r (members s name)).
  { apply filter_In. split; [exact Hr|].
    apply (key_like_pushed name uuid). exact K. }
  rewrite E in H. exact H.
Qed.

Lemma pushed_then_members (takes_id : bool) (s : KVL) (name : string)
  (items : list (string * string * Z)) :
  table_ok s -> all s name = [] -> NoDup (map pushed_uuid items) ->
  table_ok (push_all takes_id s name items)
  /\ exists ms, members (push_all takes_id s name items) name = ms
                /\ map value ms = map pushed_value items.
Proof.
  intros Hok Hall Hd. apply all_nil_members in Hall.
  destruct (members_push_all takes_id items s name Hok Hd) as [Hok' [added [E V]]].
  - intros it _. apply empty_list_fresh, Hall.
  - split; [exact Hok'|]. exists added. rewrite E, Hall. auto.
Qed.

(** C2. When the values v1..vn are pushed in order to a list that was
    empty, each push drawing a uuid of its own, n consecutive calls of
    [shift] return v1, ..., vn in that order, and one more [shift] returns
    undefined and leaves the table as it is. *)
Theorem shift_fifo (takes_id : bool) (s : KVL) (name : string)
  (items : list (string * string * Z)) :
  table_ok s -> all s name = [] -> NoDup (map pushed_uuid items) ->
  let s1 := push_all takes_id s name items in
  let r := shift_n (List.length items) s1 name in
  fst r = map (fun it => Some (pushed_value it)) items
  /\ shift (snd r) name = (None, snd r).
Proof.
  intros Hok Hall Hd s1 r.
  destruct (pushed_then_members takes_id s name items Hok Hall Hd)
    as [Hok1 [ms [E V]]].
  destruct (shift_n_members ms s1 name Hok1 E) as [F M].
  assert (L : List.length ms = List.length items).
  { rewrite <- (length_map value ms), V. apply length_map. }
  rewrite L in F, M. fold r in F, M.
  split; [|apply shift_empty, M].
  rewrite F, <- (map_map value Some), V, map_map. reflexivity.
Qed.

Lemma shift_fifo_witness :
  table_ok demo /\ all demo "jobs" = []
  /\ NoDup (map pushed_uuid [("a", "u1", 40); ("b", "u2", 40); ("c", "u3", 41)])
  /\ fst (shift_n 3 (push_all false demo "jobs"
                       [("a", "u1", 40); ("b", "u2", 40); ("c", "u3", 41)]) "jobs")
     = [Some "a"; Some "b"; Some "c"].
Proof.
  assert (Hd : NoDup (map pushed_uuid [("a", "u1", 40); ("b", "u2", 40); ("c", "u3", 41)])).
  { repeat constructor; simpl; intuition discriminate. }
  split; [exact demo_ok|]. split; [reflexivity|]. split; [exact Hd|].
  exact (proj1 (shift_fifo false demo "jobs"
                  [("a", "u1", 40); ("b", "u2", 40); ("c", "u3", 41)]
                  demo_ok eq_refl Hd)).
Defined.

(** C3. When the values v1..vn are pushed in order to a list that was
    empty, each push drawing a uuid of its own, n consecutive calls of
    [pop] return vn, ..., v1 in that order; and [pop] on a list without
    members returns undefined and leaves the table as it is. *)
Theorem pop_lifo (takes_id : bool) (s : KVL) (name : string)
  (items : list (string * string * Z)) :
  table_ok s -> all s name = [] -> NoDup (map pushed_uuid items) ->
  let s1 := push_all takes_id s name items in
  let r := pop_n (List.length items) s1 name in
  fst r = map (fun it => Some (pushed_value it)) (rev items)
  /\ pop (snd r) name = (None, snd r)
  /\ pop s name = (None, s).
Proof.
  intros Hok Hall Hd s1 r.
  destruct (pushed_then_members takes_id s name items Hok Hall Hd)
    as [Hok1 [ms [E V]]].
  destruct (pop_n_members ms s1 name Hok1 E) as [F M].
  assert (L : List.length ms = List.length items).
  { rewrite <- (length_map value ms), V. apply length_map. }
  rewrite L in F, M. fold r in F, M.
  split; [|split; [apply pop_empty, M|apply pop_empty, all_nil_members, Hall]].
  rewrite F, <- (map_map value Some), map_rev, V, <- map_rev, map_map.
  reflexivity.
Qed.

Lemma pop_lifo_witness :
  table_ok demo /\ all demo "jobs" = []
  /\ NoDup (map pushed_uuid [("a", "k1", 40); ("b", "k2", 40); ("c", "k3", 41)])
  /\ fst (pop_n 3 (push_all true demo "jobs"
                     [("a", "k1", 40); ("b", "k2", 40); ("c", "k3", 41)]) "jobs")
     = [Some "c"; Some "b"; Some "a"].
Proof.
  assert (Hd : NoDup (map pushed_uuid [("a", "k1", 40); ("b", "k2", 40); ("c", "k3", 41)])).
  { repeat constructor; simpl; intuition discriminate. }
  split; [exact demo_ok|]. split; [reflexivity|]. split; [exact Hd|].
  exact (proj1 (pop_lifo true demo "jobs"
                  [("a", "k1", 40); ("b", "k2", 40); ("c", "k3", 41)]
                  demo_ok eq_refl Hd)).
Defined.

(** ** [page] *)

(** C4. [page] never returns an object with items, total, pages and
    pageNum: with a non-empty [tags] the count statement is run with one
    bound value for several placeholders and throws; in every other case
    the body ends without a [return] and the caller gets undefined. *)
Theorem page_returns_nothing (s : KVL) (name : string)
  (pageNum0 pageSize0 : option Z) (tgs : option (list string))
  (tagsOperator : option tags_operator) (orderBy : option order_by)
  (orderDir : option order_dir) :
  page s name pageNum0 pageSize0 tgs tagsOperator orderBy orderDir =
  match tgs with
  | Some (_ :: _) => Thrown (RangeError "Too few parameter values were provided")
  | _ => Returned None
  end.
Proof.
  unfold page, page_body.
  destruct tgs as [[|tg tgs]|]; try reflexivity.
Qed.

(** C5, as the claim states it, fails: a requested page number below 1 is
    left as it is. *)
Lemma page_clamp_counterexample :
  exists loc p,
    page_body demo "q" (Some 0) (Some 10) None None None None = Returned loc
    /\ pages loc = Some p
    /\ ~ (1 <= pageNum loc <= p).
Proof.
  exists (mkLocals 2 (Some 1) 0), 1.
  split; [reflexivity|]. split; [reflexivity|]. simpl. lia.
Qed.

(** C5, amended. Without a tag filter and with a page size P of at least 1,
    for a list of T members [page] computes T as the total and, as the page
    count, the least p with T <= p * P when T > 0 (that is ceil(T / P)) and
    1 when T = 0; the effective page number is the smaller of the requested
    one and the page count, so it lies in [1, pages] whenever the requested
    one is at least 1. *)
Theorem page_count (s : KVL) (name : string) (pageNum0 pageSize0 : option Z)
  (tgs : option (list string)) (tagsOperator : option tags_operator)
  (orderBy : option order_by) (orderDir : option order_dir) :
  let N := match pageNum0 with Some n => n | None => 1 end in
  let P := match pageSize0 with Some n => n | None => 10 end in
  let T := Z.of_nat (List.length (members s name)) in
  tgs = None \/ tgs = Some [] ->
  1 <= P ->
  exists p,
    page_body s name pageNum0 pageSize0 tgs tagsOperator orderBy orderDir
    = Returned (mkLocals T (Some p) (Z.min N p))
    /\ (0 < T -> (p - 1) * P < T <= p * P)
    /\ (T = 0 -> p = 1)
    /\ (1 <= N -> 1 <= Z.min N p <= p).
Proof.
  intros N P T Htags HP.
  assert (HT : 0 <= T) by apply Nat2Z.is_nonneg.
  set (lastOffset := if T >? 0 then T - 1 else 0).
  exists (lastOffset / P + 1).
  assert (Hbody :
    page_body s name pageNum0 pageSize0 tgs tagsOperator orderBy orderDir
    = Returned (mkLocals T (Some (lastOffset / P + 1)) (Z.min N (lastOffset / P + 1)))).
  { unfold page_body.
    replace (bind_parameters (page_placeholders tgs) 1) with (@None js_error)
      by (destruct Htags as [-> | ->]; reflexivity).
    fold N P. fold (members s name). fold T. fold lastOffset.
    unfold floor_div.
    replace (P =? 0) with false by (symmetry; apply Z.eqb_neq; lia).
    cbn [option_map]. f_equal. f_equal.
    destruct (N >? lastOffset / P + 1) eqn:E.
    - apply Z.gtb_lt in E. lia.
    - rewrite Z.gtb_ltb in E. apply Z.ltb_ge in E. lia. }
  split; [exact Hbody|].
  assert (Hlo : 0 <= lastOffset) by (unfold lastOffset; destruct (T >? 0) eqn:E; lia).
  pose proof (Z.div_pos lastOffset P Hlo ltac:(lia)) as Hq.
  split; [|split].
  - intros HT0. unfold lastOffset.
    replace (T >? 0) with true by (symmetry; apply Z.gtb_lt; lia).
    pose proof (Z.div_mod (T - 1) P ltac:(lia)) as Hdm.
    pose proof (Z.mod_pos_bound (T - 1) P ltac:(lia)) as Hmod.
    nia.
  - intros HT0. unfold lastOffset. rewrite HT0.
    change (0 >? 0) with false. cbv iota.
    rewrite Z.div_0_l by lia. reflexivity.
  - intros HN. lia.
Qed.

Lemma page_count_witness :
  ((@None (list string)) = None \/ (@None (list string)) = Some []) /\ 1 <= 2
  /\ exists p,
       page_body demo "q" (Some 5) (Some 2) None None None None
       = Returned (mkLocals 2 (Some p) (Z.min 5 p)).
Proof.
  split; [left; reflexivity|]. split; [lia|].
  destruct (page_count demo "q" (Some 5) (Some 2) None None None None
              (or_introl eq_refl) ltac:(simpl; lia)) as [p [H _]].
  exists p. exact H.
Defined.

(** ** [tags] *)

Lemma find_update (cond : row -> bool) (f : row -> row) (rs : list row) :
  (forall r, cond (f r) = cond r) ->
  find cond (map (fun r => if cond r then f r else r) rs)
  = option_map f (find cond rs).
Proof.
  intros Hf. induction rs as [|a rs IH]; simpl; [reflexivity|].
  destruct (cond a) eqn:E.
  - rewrite Hf, E. reflexivity.
  - rewrite E. exact IH.
Qed.

Lemma find_key_some (k : string) (rs : list row) :
  In k (map key rs) -> exists r, find (key_is k) rs = Some r.
Proof.
  intros H. apply existsb_key_is in H.
  destruct (find (key_is k) rs) as [r|] eqn:F; [eauto|].
  apply existsb_exists in H. destruct H as [x [Hx Hc]].
  rewrite (find_none _ _ F x Hx) in Hc. discriminate.
Qed.

Lemma find_key_none (k : string) (rs : list row) :
  ~ In k (map key rs) -> find (key_is k) rs = None.
Proof.
  intros H. destruct (find (key_is k) rs) as [r|] eqn:F; [|reflexivity].
  destruct (find_some _ _ F) as [Hr Hc]. exfalso. apply H.
  apply existsb_key_is, existsb_exists. eauto.
Qed.

Lemma with_rows_same (s : KVL) : with_rows s (kvl_rows s) = s.
Proof. destruct s. reflexivity. Qed.

(** C6. On a key that has a record, [tags(k, x)] returns normally, stores
    [x] as the labels and the time of the call as [updateTime], and a
    following [tags(k)] returns [x]. On a key without record, both
    [tags(k)] and [tags(k, x)] throw the error "item does not exist" (the
    store's not-found error) and change nothing. *)
Theorem tags_round_trip (s : KVL) (k x : string) (now later : Z) :
  (In k (map key (kvl_rows s)) ->
   let s1 := snd (tags s k (Some x) now) in
   fst (tags s k (Some x) now) = Returned Void
   /\ tags s1 k None later = (Returned (Labels (Some x)), s1)
   /\ (forall r, In r (kvl_rows s1) -> key r = k ->
                 labels r = Some x /\ updateTime r = now))
  /\ (~ In k (map key (kvl_rows s)) ->
      tags s k None now = (Thrown (Error "item does not exist"), s)
      /\ tags s k (Some x) now = (Thrown (Error "item does not exist"), s)).
Proof.
  split.
  - intros Hin.
    assert (Hchanges : (snd (sql_update (key_is k) (set_labels x now) (kvl_rows s)) <? 1) = false).
    { apply Z.ltb_ge. simpl.
      apply existsb_key_is, existsb_exists in Hin. destruct Hin as [r [Hr Hc]].
      assert (Hf : In r (filter (key_is k) (kvl_rows s))) by (apply filter_In; auto).
      destruct (filter (key_is k) (kvl_rows s)); [contradiction|].
      simpl List.length. lia. }
    unfold tags at 1 2. rewrite Hchanges. cbn [fst snd]. cbv zeta.
    split; [reflexivity|]. split.
    + unfold tags, sql_get, with_rows, sql_update. cbn [fst kvl_rows].
      rewrite find_update by reflexivity.
      destruct (find_key_some k _ Hin) as [r ->]. reflexivity.
    + unfold with_rows, sql_update. cbn [fst kvl_rows].
      intros r Hr Hk. apply in_map_iff in Hr. destruct Hr as [r0 [E Hr0]].
      destruct (key_is k r0) eqn:Hc.
      * subst r. auto.
      * subst r. unfold key_is in Hc. apply String.eqb_neq in Hc. contradiction.
  - intros Hout. unfold tags, sql_get.
    rewrite (find_key_none k _ Hout).
    split; [reflexivity|].
    unfold sql_update. cbn [fst snd].
    rewrite (filter_key_absent k _ Hout). cbn [List.length].
    change (Z.of_nat 0 <? 1) with true. cbv iota.
    rewrite update_untouched, with_rows_same; [reflexivity|].
    apply Forall_forall. intros r Hr.
    destruct (key_is k r) eqn:Hc; [|reflexivity].
    exfalso. apply Hout. apply existsb_key_is, existsb_exists. eauto.
Qed.

Lemma tags_round_trip_witness :
  In "color" (map key (kvl_rows demo))
  /\ ~ In "shape" (map key (kvl_rows demo))
  /\ fst (tags (snd (tags demo "color" (Some "x") 50)) "color" None 51)
     = Returned (Labels (Some "x"))
  /\ tags demo "shape" None 50 = (Thrown (Error "item does not exist"), demo).
Proof.
  assert (Hin : In "color" (map key (kvl_rows demo))) by (left; reflexivity).
  assert (Hout : ~ In "shape" (map key (kvl_rows demo)))
    by (simpl; intuition discriminate).
  split; [exact Hin|]. split; [exact Hout|]. split.
  - pose proof (proj1 (proj2 (proj1 (tags_round_trip demo "color" "x" 50 51) Hin))) as H.
    cbv zeta in H. rewrite H. reflexivity.
  - exact (proj1 (proj2 (tags_round_trip demo "shape" "x" 50 51) Hout)).
Defined.

(** C10. When the record of key [k] has labels [L] (what [tags(k)] returns),
    it still has labels [L] after [set(k, v)]. *)
Theorem set_keeps_labels (takes_id : bool) (s : KVL) (k v : string)
  (now t1 t2 : Z) (L : option string) :
  fst (tags s k None t1) = Returned (Labels L) ->
  fst (tags (set takes_id s k v now) k None t2) = Returned (Labels L).
Proof.
  unfold tags, sql_get. intros H.
  destruct (find (key_is k) (kvl_rows s)) as [item|] eqn:F; [|discriminate].
  simpl in H. injection H as H.
  assert (Hin : In k (map key (kvl_rows s))).
  { destruct (find_some _ _ F) as [Hr Hc].
    apply existsb_key_is, existsb_exists. eauto. }
  rewrite set_existing by exact Hin.
  rewrite find_update by reflexivity.
  rewrite F. simpl. rewrite <- H. reflexivity.
Qed.

Lemma set_keeps_labels_witness :
  fst (tags demo "color" None 50) = Returned (Labels (Some "a,b"))
  /\ fst (tags (set true demo "color" "green" 60) "color" None 70)
     = Returned (Labels (Some "a,b")).
Proof.
  split; [reflexivity|].
  exact (set_keeps_labels true demo "color" "green" 60 50 70 (Some "a,b") eq_refl).
Defined.

(** ** [expire] *)

(** C7, as the claim states it, fails: with [expireTimeMs] given as 0 the
    guard of [expire] returns at once, and a record whose [updateTime] is
    not after [now - 0] stays. *)
Lemma expire_zero_counterexample :
  expireTimeMs expiry_zero = Some 0
  /\ exists r, In r (kvl_rows (expire expiry_zero 10))
               /\ updateTime r <= 10 - 0.
Proof.
  split; [reflexivity|].
  exists (mkRow 1 "k" "v" None 5 5). split; [left; reflexivity|]. simpl. lia.
Qed.

(** C7, amended. With an [expireTimeMs] E other than 0, after [expire()]
    the records are those of before whose [updateTime] is after [now - E]:
    every record with [updateTime <= now - E] is gone and every other is
    kept as it was. Without [expireTimeMs], and also with an [expireTimeMs]
    of 0, [expire()] changes nothing. *)
Theorem expire_sweeps (s : KVL) (now : Z) :
  (forall E, expireTimeMs s = Some E -> E <> 0 ->
     forall r, In r (kvl_rows (expire s now))
               <-> In r (kvl_rows s) /\ now - E < updateTime r)
  /\ (expireTimeMs s = None \/ expireTimeMs s = Some 0 -> expire s now = s).
Proof.
  split.
  - intros E HE Hnz r. unfold expire. rewrite HE.
    replace (E =? 0) with false by (symmetry; apply Z.eqb_neq; exact Hnz).
    simpl. rewrite filter_In, negb_true_iff, Z.leb_gt. reflexivity.
  - intros [H|H]; unfold expire; rewrite H; reflexivity.
Qed.

Lemma expire_sweeps_witness :
  expireTimeMs demo = Some 100 /\ 100 <> 0
  /\ (In (mkRow 1 "color" "red" (Some "a,b") 10 10) (kvl_rows (expire demo 120))
      <-> In (mkRow 1 "color" "red" (Some "a,b") 10 10) (kvl_rows demo)
          /\ 120 - 100 < 10).
Proof.
  split; [reflexivity|]. split; [lia|].
  exact (proj1 (expire_sweeps demo 120) 100 eq_refl ltac:(lia)
               (mkRow 1 "color" "red" (Some "a,b") 10 10)).
Defined.

(** ** Which records a list holds *)

Lemma to_lower_colon (c : ascii) :
  Ascii.eqb c ":" = false -> Ascii.eqb (to_lower c) (to_lower ":") = false.
Proof.
  destruct c as [[] [] [] [] [] [] [] []]; intros H;
    solve [reflexivity | discriminate H].
Qed.

Lemma pattern_other_name (b : string) :
  forall a rest : string,
  plain_name b = true -> no_colon a = true -> lower a <> lower b ->
  pattern_compare (b ++ ":%") (a ++ ":" ++ rest) = false.
Proof.
  induction b as [|c b IH]; intros a rest Hb Ha Hne.
  - destruct a as [|d a]; [contradiction Hne; reflexivity|].
    simpl in Ha. apply andb_true_iff in Ha. destruct Ha as [Hd _].
    apply negb_true_iff in Hd.
    change (pattern_compare (String ":" "%") (String d (a ++ ":" ++ rest)) = false).
    rewrite pattern_compare_cons.
    change (Ascii.eqb ":" "%") with false. change (Ascii.eqb ":" "_") with false.
    cbv iota. rewrite Ascii.eqb_sym, (to_lower_colon d Hd). reflexivity.
  - simpl in Hb. apply andb_true_iff in Hb. destruct Hb as [Hc Hb].
    apply andb_true_iff in Hc. destruct Hc as [Hc H3].
    apply andb_true_iff in Hc. destruct Hc as [H1 H2].
    apply negb_true_iff in H1, H2, H3.
    change (pattern_compare (String c (b ++ ":%")) (a ++ ":" ++ rest) = false).
    rewrite pattern_compare_cons, H2, H3.
    destruct a as [|d a].
    + change (Ascii.eqb (to_lower c) (to_lower ":") && pattern_compare (b ++ ":%") rest = false).
      rewrite (to_lower_colon c H1). reflexivity.
    + change (Ascii.eqb (to_lower c) (to_lower d)
              && pattern_compare (b ++ ":%") (a ++ ":" ++ rest) = false).
      simpl in Ha. apply andb_true_iff in Ha. destruct Ha as [_ Ha].
      destruct (Ascii.eqb_spec (to_lower c) (to_lower d)) as [E|E]; [|reflexivity].
      rewrite IH; [reflexivity|exact Hb|exact Ha|].
      intros El. apply Hne. simpl. rewrite El, E. reflexivity.
Qed.

Lemma c_str_app (n x : string) :
  no_nul n = true -> c_str (n ++ x) = (n ++ c_str x)%string.
Proof.
  induction n as [|c n IH]; simpl; intros H; [reflexivity|].
  apply andb_true_iff in H. destruct H as [Hc Hn].
  apply negb_true_iff in Hc. rewrite Hc, (IH Hn). reflexivity.
Qed.

Lemma c_str_id (n : string) : no_nul n = true -> c_str n = n.
Proof.
  induction n as [|c n IH]; simpl; intros H; [reflexivity|].
  apply andb_true_iff in H. destruct H as [Hc Hn].
  apply negb_true_iff in Hc. rewrite Hc, (IH Hn). reflexivity.
Qed.

(** A pattern made of a plain name does not match a key that [push] builds
    for a list of another name. *)
Lemma like_other_name (a b rest : string) :
  plain_name b = true -> no_colon a = true ->
  no_nul a = true -> no_nul b = true -> lower a <> lower b ->
  sql_like (b ++ ":%") (a ++ ":" ++ rest) = false.
Proof.
  intros Hb Ha Na Nb Hne. unfold sql_like.
  rewrite (c_str_app b ":%" Nb), (c_str_app a (":" ++ rest) Na).
  apply (pattern_other_name b a (c_str rest) Hb Ha Hne).
Qed.

Lemma pattern_plain_prefix (name : string) :
  forall k, no_wildcard name = true ->
  pattern_compare (name ++ ":%") k = String.prefix (lower (name ++ ":")) (lower k).
Proof.
  induction name as [|c name IH]; intros k Hn.
  - change (pattern_compare (String ":" "%") k = String.prefix (String ":" "") (lower k)).
    rewrite pattern_compare_cons.
    change (Ascii.eqb ":" "%") with false. change (Ascii.eqb ":" "_") with false.
    cbv iota. destruct k as [|d k]; [reflexivity|].
    rewrite pattern_compare_percent, andb_true_r. cbn [lower String.prefix].
    change (to_lower ":") with ":"%char.
    destruct (ascii_dec ":" (to_lower d)) as [E|E].
    + rewrite <- E. destruct (lower k); reflexivity.
    + apply Ascii.eqb_neq, E.
  - simpl in Hn. apply andb_true_iff in Hn. destruct Hn as [Hc Hn].
    apply andb_true_iff in Hc. destruct Hc as [H1 H2].
    apply negb_true_iff in H1, H2.
    change (pattern_compare (String c (name ++ ":%")) k
            = String.prefix (String (to_lower c) (lower (name ++ ":"))) (lower k)).
    rewrite pattern_compare_cons, H1, H2.
    destruct k as [|d k]; [reflexivity|].
    cbn [lower String.prefix]. rewrite (IH k Hn).
    destruct (ascii_dec (to_lower c) (to_lower d)) as [E|E].
    + rewrite E, Ascii.eqb_refl. reflexivity.
    + apply Ascii.eqb_neq in E. rewrite E. reflexivity.
Qed.

(** For a name without wildcards, and strings without NUL, [LIKE] with the
    pattern of a list tests that the key starts with the name and a colon,
    the letters A-Z and a-z taken as equal. *)
Lemma like_plain_prefix (name k : string) :
  no_wildcard name = true -> no_nul name = true -> no_nul k = true ->
  sql_like (name ++ ":%") k = String.prefix (lower (name ++ ":")) (lower k).
Proof.
  intros Hw Hn Hk. unfold sql_like.
  rewrite (c_str_app name ":%" Hn), (c_str_id k Hk).
  apply pattern_plain_prefix, Hw.
Qed.

Lemma insert_createTime_in (x r : row) (l : list row) :
  In x (insert_createTime_desc r l) <-> x = r \/ In x l.
Proof.
  induction l as [|y l IH]; simpl.
  - intuition congruence.
  - destruct (createTime y <=? createTime r); simpl; [intuition congruence|].
    rewrite IH. intuition congruence.
Qed.

Lemma order_by_in (x : row) (l : list row) :
  In x (order_by_createTime_desc l) <-> In x l.
Proof.
  induction l as [|r l IH]; simpl; [reflexivity|].
  rewrite insert_createTime_in, IH. intuition congruence.
Qed.

Lemma filter_update_other (cond upd : row -> bool) (f : row -> row) (rs : list row) :
  (forall r, upd r = true -> cond r = false /\ cond (f r) = false) ->
  filter cond (map (fun r => if upd r then f r else r) rs) = filter cond rs.
Proof.
  intros H. induction rs as [|a rs IH]; simpl; [reflexivity|].
  destruct (upd a) eqn:E.
  - destruct (H a E) as [-> ->]. exact IH.
  - rewrite IH. reflexivity.
Qed.

(** [set] on a key that a list's pattern does not match leaves the members
    of that list as they are. *)
Lemma members_set_other (takes_id : bool) (s : KVL) (k v name : string) (now : Z) :
  sql_like (name ++ ":%") k = false ->
  members (set takes_id s k v now) name = members s name.
Proof.
  intros H.
  assert (Hk : forall r, key_is k r = true ->
                         key_like name r = false
                         /\ key_like name (set_value v now r) = false).
  { intros r Hr. unfold key_is in Hr. apply String.eqb_eq in Hr.
    unfold key_like, set_value. simpl. rewrite Hr. auto. }
  unfold members, set, sql_update. cbn [fst with_rows kvl_rows].
  rewrite filter_update_other by exact Hk.
  unfold insert_or_ignore.
  destruct (existsb (key_is k) (kvl_rows s)); cbn [kvl_rows]; [reflexivity|].
  rewrite filter_app. cbn [filter]. unfold key_like at 2. cbn [key].
  rewrite H. apply app_nil_r.
Qed.

Lemma pick_in (better : Z -> Z -> bool) (l : list row) :
  forall (acc : option row) (x : row),
  fold_left (pick better) l acc = Some x -> In x l \/ acc = Some x.
Proof.
  induction l as [|a l IH]; simpl; intros acc x H; [auto|].
  apply IH in H. destruct H as [H|H]; [auto|].
  destruct acc as [b|]; simpl in H.
  - destruct (better (id a) (id b)); injection H as <-; auto.
  - injection H as <-. auto.
Qed.

Lemma sorted_id_inj (l : list row) (x y : row) :
  StronglySorted id_lt l -> In x l -> In y l -> id x = id y -> x = y.
Proof.
  induction 1 as [|a l _ IH Ha]; simpl; [contradiction|].
  rewrite Forall_forall in Ha. unfold id_lt in Ha.
  intros [<-|Hx] [<-|Hy] E; auto.
  - specialize (Ha y Hy). lia.
  - specialize (Ha x Hx). lia.
Qed.

(** Deleting the selected item of a list keeps every record that the
    list's pattern does not match. *)
Lemma delete_item_keeps (s : KVL) (name : string) (item : option row) (r : row) :
  table_ok s ->
  (forall it, item = Some it -> In it (members s name)) ->
  In r (kvl_rows s) -> key_like name r = false ->
  In r (kvl_rows (delete_item s item)).
Proof.
  intros Hok Hit Hr Hno. unfold delete_item.
  destruct item as [it|]; [|exact Hr].
  destruct (id it =? 0); [exact Hr|].
  unfold with_rows, sql_delete. cbn [fst kvl_rows].
  apply filter_In. split; [exact Hr|].
  apply negb_true_iff, Z.eqb_neq. intros E.
  specialize (Hit it eq_refl). apply filter_In in Hit. destruct Hit as [Hin Hc].
  assert (r = it) by (apply (sorted_id_inj _ _ _ (ok_sorted _ Hok) Hr Hin E)).
  subst. congruence.
Qed.

(** C8, as the claim states it, fails. The names "Q" and "q" are distinct,
    yet a value pushed to "Q" is listed by [all("q")] and returned by
    [pop("q")] and [shift("q")], although its key does not start with "q:".
    And a value pushed to the list "q:x" is listed by [all("q")]. *)
Lemma prefix_isolation_counterexample :
  let uuid := "123e4567-e89b-42d3-a456-426614174000" in
  let s := snd (push true (mkKVL None [] 0) "Q" "v" uuid 7) in
  let s' := snd (push true (mkKVL None [] 0) "q:x" "w" uuid 7) in
  "Q" <> "q"
  /\ all s "q" = [mkItem 7 7 ("Q:" ++ uuid) "v"]
  /\ fst (pop s "q") = Some "v"
  /\ fst (shift s "q") = Some "v"
  /\ String.prefix "q:" ("Q:" ++ uuid) = false
  /\ "q:x" <> "q"
  /\ all s' "q" = [mkItem 7 7 ("q:x:" ++ uuid) "w"].
Proof.
  cbv zeta. repeat split; try reflexivity; discriminate.
Qed.

(** C8, amended. For names and keys made of characters below code point
    256, and a name [b] whose pattern is within the length that [LIKE]
    accepts: a record is listed by [all(b)], and is taken by the successive
    calls of [shift(b)] (least id first) and of [pop(b)] (greatest id
    first), iff its key matches the pattern [b || ':%'] of [LIKE], which
    reads pattern and key up to their first NUL, takes [%] and [_] of the
    name as wildcards and the letters A-Z and a-z as equal. When neither
    the name nor the key holds a NUL and the name holds no [%] and no [_],
    that is: iff the key starts with the name and a colon, up to the case
    of letters. For two names [a] and [b] without NUL that differ even
    without regard to case, [a] holding no colon and [b] none of colon, [%]
    and [_], a push to [a] changes neither [all(b)] nor what [pop(b)] and
    [shift(b)] return, and in no later state is the pushed record listed by
    [all(b)] or removed by [pop(b)] or [shift(b)]. *)
Theorem list_isolation (takes_id : bool) (s : KVL) (a b v uuid : string) (now : Z) :
  like_pattern_too_complex b = false ->
  (forall it, In it (all s b) <->
              exists r, In r (kvl_rows s)
                        /\ sql_like (b ++ ":%") (key r) = true
                        /\ it = select_columns r)
  /\ (table_ok s ->
      let listed := filter (fun r => sql_like (b ++ ":%") (key r)) (kvl_rows s) in
      let n := List.length listed in
      fst (shift_n n s b) = map (fun r => Some (value r)) listed
      /\ fst (pop_n n s b) = map (fun r => Some (value r)) (rev listed)
      /\ fst (shift (snd (shift_n n s b)) b) = None
      /\ fst (pop (snd (pop_n n s b)) b) = None)
  /\ (no_wildcard b = true -> no_nul b = true ->
      forall r, no_nul (key r) = true ->
        sql_like (b ++ ":%") (key r)
        = String.prefix (lower (b ++ ":")) (lower (key r)))
  /\ (no_colon a = true -> plain_name b = true ->
      no_nul a = true -> no_nul b = true -> lower a <> lower b ->
      let s' := snd (push takes_id s a v uuid now) in
      all s' b = all s b
      /\ fst (pop s' b) = fst (pop s b)
      /\ fst (shift s' b) = fst (shift s b)
      /\ forall s2 r, table_ok s2 -> In r (kvl_rows s2) ->
           key r = fst (push takes_id s a v uuid now) ->
           ~ In (select_columns r) (all s2 b)
           /\ In r (kvl_rows (snd (pop s2 b)))
           /\ In r (kvl_rows (snd (shift s2 b)))).
Proof.
  intros _. split; [|split; [|split]].
  - intros it. unfold all. rewrite in_map_iff. split.
    + intros [r [E Hr]]. apply order_by_in, filter_In in Hr.
      exists r. unfold key_like in Hr. intuition.
    + intros [r [Hr [Hl E]]]. exists r. split; [auto|].
      apply order_by_in, filter_In. auto.
  - intros Hok listed n.
    change listed with (members s b) in *. subst n.
    destruct (shift_n_members (members s b) s b Hok eq_refl) as [F1 E1].
    destruct (pop_n_members (members s b) s b Hok eq_refl) as [F2 E2].
    rewrite (shift_empty _ b E1), (pop_empty _ b E2). auto.
  - intros Hw Hn r Hk. apply like_plain_prefix; assumption.
  - intros Ha Hb Na Nb Hne s'.
    pose proof (like_other_name a b uuid Hb Ha Na Nb Hne) as Hno.
    assert (M : members s' b = members s b)
      by (apply (members_set_other takes_id s (a ++ ":" ++ uuid) v b now Hno)).
    unfold members in M.
    split; [unfold all; rewrite M; reflexivity|].
    split; [unfold pop, sql_get_order_by_id_desc; cbn [fst]; rewrite M; reflexivity|].
    split; [unfold shift, sql_get_order_by_id_asc; cbn [fst]; rewrite M; reflexivity|].
    intros s2 r Hok Hr Hk. cbn [push fst] in Hk.
    assert (Hr_no : key_like b r = false) by (unfold key_like; rewrite Hk; exact Hno).
    split; [|split].
    + unfold all. rewrite in_map_iff. intros [r0 [E Hr0]].
      apply order_by_in, filter_In in Hr0. destruct Hr0 as [_ Hc].
      unfold key_like in Hc.
      replace (key r0) with (key r) in Hc
        by (change (item_key (select_columns r) = item_key (select_columns r0));
            rewrite E; reflexivity).
      rewrite Hk, Hno in Hc. discriminate.
    + unfold pop. cbn [snd].
      apply (delete_item_keeps s2 b _ r Hok); [|exact Hr|exact Hr_no].
      intros it Hit. apply pick_in in Hit. destruct Hit as [Hit|Hit]; [exact Hit|discriminate].
    + unfold shift. cbn [snd].
      apply (delete_item_keeps s2 b _ r Hok); [|exact Hr|exact Hr_no].
      intros it Hit. apply pick_in in Hit. destruct Hit as [Hit|Hit]; [exact Hit|discriminate].
Qed.

Lemma list_isolation_witness :
  like_pattern_too_complex "q" = false
  /\ table_ok demo
  /\ no_wildcard "q" = true
  /\ no_colon "jobs" = true /\ plain_name "q" = true
  /\ no_nul "jobs" = true /\ no_nul "q" = true /\ lower "jobs" <> lower "q"
  /\ fst (shift_n 2 demo "q") = [Some "first"; Some "second"]
  /\ sql_like "q:%" "q:u1" = String.prefix (lower "q:") (lower "q:u1")
  /\ all (snd (push true demo "jobs" "v" "u9" 50)) "q" = all demo "q"
  /\ In (mkRow 5 "jobs:u9" "v" None 50 50)
        (kvl_rows (snd (shift (snd (push true demo "jobs" "v" "u9" 50)) "q"))).
Proof.
  assert (Hne : lower "jobs" <> lower "q") by discriminate.
  assert (Hok : table_ok (snd (push true demo "jobs" "v" "u9" 50)))
    by (apply ok_set, demo_ok).
  pose proof (list_isolation true demo "jobs" "q" "v" "u9" 50 eq_refl)
    as [_ [H2 [H3 H4]]].
  specialize (H2 demo_ok). cbv zeta in H2. destruct H2 as [H2 _].
  specialize (H3 eq_refl eq_refl (mkRow 2 "q:u1" "first" None 20 20) eq_refl).
  specialize (H4 eq_refl eq_refl eq_refl eq_refl Hne).
  cbv zeta in H4. destruct H4 as [H41 [_ [_ H44]]].
  do 8 (split; [first [exact demo_ok | exact Hne | reflexivity]|]).
  split; [exact H2|]. split; [exact H3|]. split; [exact H41|].
  apply (H44 _ (mkRow 5 "jobs:u9" "v" None 50 50) Hok).
  - right. right. right. left. reflexivity.
  - reflexivity.
Defined.

(** The scenario of the design notes: after pushing "a", "b" and "c" to the
    list "q", [shift] returns "a", then [pop] returns "c", and [all] lists
    the one record left, which holds "b". *)
Example queue_scenario :
  let s0 := mkKVL None [] 0 in
  let s3 := push_all true s0 "q" [("a", "u1", 1); ("b", "u2", 2); ("c", "u3", 3)] in
  let (x, s4) := shift s3 "q" in
  let (y, s5) := pop s4 "q" in
  x = Some "a" /\ y = Some "c" /\ all s5 "q" = [mkItem 2 2 "q:u2" "b"].
Proof. cbv zeta. simpl. repeat split; reflexivity. Qed.

(** ** [createTime] *)

Lemma later_refl (s : KVL) : later s s.
Proof. split; [lia|]. intros r Hr. left. exists r. auto. Qed.

Lemma later_trans (s1 s2 s3 : KVL) : later s1 s2 -> later s2 s3 -> later s1 s3.
Proof.
  intros [L12 H12] [L23 H23]. split; [lia|].
  intros r3 Hr3. destruct (H23 r3 Hr3) as [[r2 [Hr2 [I2 [K2 C2]]]]|Hnew]; [|right; lia].
  destruct (H12 r2 Hr2) as [[r1 [Hr1 [I1 [K1 C1]]]]|Hnew]; [|right; lia].
  left. exists r1. repeat split; congruence.
Qed.

Lemma later_filter (s : KVL) (f : row -> bool) :
  later s (with_rows s (filter f (kvl_rows s))).
Proof.
  split; [simpl; lia|]. simpl. intros r Hr. apply filter_In in Hr.
  left. exists r. tauto.
Qed.

Lemma later_update (s : KVL) (cond : row -> bool) (f : row -> row) :
  (forall r, id (f r) = id r /\ key (f r) = key r /\ createTime (f r) = createTime r) ->
  later s (with_rows s (fst (sql_update cond f (kvl_rows s)))).
Proof.
  intros Hf. split; [simpl; lia|]. simpl. intros r' Hr'.
  apply in_map_iff in Hr'. destruct Hr' as [r [E Hr]].
  left. exists r. split; [exact Hr|].
  destruct (cond r); subst r'; [|auto].
  destruct (Hf r) as [-> [-> ->]]. auto.
Qed.

Section Steps.

Variable takes_id : bool.

Lemma later_insert_or_ignore (s : KVL) (ct ut : Z) (k v : string) :
  later s (insert_or_ignore takes_id s ct ut k v).
Proof.
  unfold insert_or_ignore.
  destruct (existsb (key_is k) (kvl_rows s)); split; simpl.
  - destruct takes_id; lia.
  - intros r Hr. left. exists r. auto.
  - lia.
  - intros r Hr. apply in_app_or in Hr. destruct Hr as [Hr|[<-|[]]].
    + left. exists r. auto.
    + right. simpl. lia.
Qed.

Lemma later_delete_item (s : KVL) (item : option row) : later s (delete_item s item).
Proof.
  unfold delete_item. destruct item as [it|]; [|apply later_refl].
  destruct (id it =? 0); [apply later_refl|apply later_filter].
Qed.

(** No call changes the creation time of a row it keeps, and the rows it
    adds get ids that were never used. *)
Lemma later_exec (s : KVL) (c : call) : later s (exec takes_id s c).
Proof.
  destruct c; simpl; try apply later_refl.
  - eapply later_trans; [apply later_insert_or_ignore|].
    apply later_update. intros r. auto.
  - eapply later_trans; [apply later_insert_or_ignore|].
    apply later_update. intros r. auto.
  - apply later_delete_item.
  - apply later_delete_item.
  - unfold tags. destruct tgs as [l|].
    + destruct (snd _ <? 1); simpl; apply later_update; intros r; auto.
    + destruct (sql_get _ _); apply later_refl.
  - unfold expire. destruct (expireTimeMs s) as [e|]; [|apply later_refl].
    destruct (e =? 0); [apply later_refl|apply later_filter].
Qed.

Lemma later_run (cs : list call) : forall s, later s (run takes_id s cs).
Proof.
  induction cs as [|c cs IH]; intros s; simpl.
  - apply later_refl.
  - eapply later_trans; [apply later_exec|apply IH].
Qed.

End Steps.

(** C9. Through any sequence of calls ([set] on an existing key and writes
    of tags among them), a record that is still in the table has the
    [createTime] (and the key) it had before. *)
Theorem createTime_never_changes (takes_id : bool) (s : KVL) (cs : list call)
  (i : Z) (r r' : row) :
  table_ok s ->
  row_of_id s i = Some r ->
  row_of_id (run takes_id s cs) i = Some r' ->
  createTime r' = createTime r /\ key r' = key r.
Proof.
  intros Hok F F'. unfold row_of_id in F, F'.
  apply find_some in F, F'. destruct F as [Hr Hi], F' as [Hr' Hi'].
  apply Z.eqb_eq in Hi, Hi'.
  destruct (later_run takes_id cs s) as [_ H].
  destruct (H r' Hr') as [[r0 [Hr0 [I0 [K0 C0]]]]|Hnew].
  - assert (r0 = r).
    { apply (sorted_id_inj _ _ _ (ok_sorted _ Hok) Hr0 Hr). congruence. }
    subst r0. auto.
  - pose proof (ok_ids _ Hok) as Hids. rewrite Forall_forall in Hids.
    specialize (Hids r Hr). lia.
Qed.

Lemma createTime_never_changes_witness :
  table_ok demo
  /\ row_of_id demo 1 = Some (mkRow 1 "color" "red" (Some "a,b") 10 10)
  /\ row_of_id (run true demo [CallSet "color" "blue" 50; CallTags "color" (Some "z") 60;
                               CallPush "q" "third" "u3" 70; CallPop "q"; CallExpire 100]) 1
     = Some (mkRow 1 "color" "blue" (Some "z") 10 60)
  /\ createTime (mkRow 1 "color" "blue" (Some "z") 10 60)
     = createTime (mkRow 1 "color" "red" (Some "a,b") 10 10).
Proof.
  split; [exact demo_ok|]. split; [reflexivity|]. split; [reflexivity|].
  exact (proj1 (createTime_never_changes true demo
                  [CallSet "color" "blue" 50; CallTags "color" (Some "z") 60;
                   CallPush "q" "third" "u3" 70; CallPop "q"; CallExpire 100]
                  1 _ _ demo_ok eq_refl eq_refl)).
Defined.

(** * Further properties of the methods *)

(** ** [get] and [set] *)

Lemma find_map_keeps (cond : row -> bool) (g : row -> row) (rs : list row) :
  (forall r, cond (g r) = cond r) ->
  find cond (map g rs) = option_map g (find cond rs).
Proof.
  intros Hg. induction rs as [|a rs IH]; simpl; [reflexivity|].
  rewrite Hg. destruct (cond a); [reflexivity|exact IH].
Qed.

Lemma find_snoc_miss (cond : row -> bool) (rs : list row) (x : row) :
  cond x = false -> find cond (rs ++ [x]) = find cond rs.
Proof.
  intros Hx. induction rs as [|a rs IH]; simpl; [rewrite Hx; reflexivity|].
  destruct (cond a); [reflexivity|exact IH].
Qed.

Lemma find_snoc_hit (cond : row -> bool) (rs : list row) (x : row) :
  find cond rs = None -> cond x = true -> find cond (rs ++ [x]) = Some x.
Proof.
  intros N Hx. induction rs as [|a rs IH]; simpl; [rewrite Hx; reflexivity|].
  simpl in N. destruct (cond a); [discriminate|]. apply IH, N.
Qed.

Lemma key_is_update (k k' v : string) (now : Z) (r : row) :
  key_is k' (if key_is k r then set_value v now r else r) = key_is k' r.
Proof. destruct (key_is k r); reflexivity. Qed.

Lemma insert_has_key (takes_id : bool) (s : KVL) (ct ut : Z) (k v : string) :
  In k (map key (kvl_rows (insert_or_ignore takes_id s ct ut k v))).
Proof.
  unfold insert_or_ignore.
  destruct (existsb (key_is k) (kvl_rows s)) eqn:E; simpl.
  - apply existsb_key_is, E.
  - rewrite map_app. apply in_or_app. right. left. reflexivity.
Qed.

Lemma get_after_set (takes_id : bool) (s : KVL) (k v : string) (now : Z) :
  get (set takes_id s k v now) k = Some v.
Proof.
  unfold get, sql_get, set, sql_update. cbn [fst with_rows kvl_rows].
  rewrite find_update by reflexivity.
  destruct (find_key_some k _ (insert_has_key takes_id s now now k v)) as [r ->].
  reflexivity.
Qed.

(** X1. Whatever the table holds, and whether or not the key was there,
    [get(k)] right after [set(k, v)] returns [v]; a second [set] on the
    same key replaces the value that [get] returns. *)
Theorem get_set_same (takes_id : bool) (s : KVL) (k v w : string) (now later : Z) :
  get (set takes_id s k v now) k = Some v
  /\ get (set takes_id (set takes_id s k v now) k w later) k = Some w.
Proof. split; apply get_after_set. Qed.

(** X2. [set(k, v)] changes what [get] returns for no other key. *)
Theorem get_set_other (takes_id : bool) (s : KVL) (k k' v : string) (now : Z) :
  k' <> k -> get (set takes_id s k v now) k' = get s k'.
Proof.
  intros Hne. unfold get, sql_get, set, sql_update. cbn [fst with_rows kvl_rows].
  rewrite find_map_keeps by (intros r; apply key_is_update).
  assert (F : find (key_is k') (kvl_rows (insert_or_ignore takes_id s now now k v))
              = find (key_is k') (kvl_rows s)).
  { unfold insert_or_ignore.
    destruct (existsb (key_is k) (kvl_rows s)); cbn [kvl_rows]; [reflexivity|].
    apply find_snoc_miss. unfold key_is. simpl.
    apply String.eqb_neq. congruence. }
  rewrite F. destruct (find (key_is k') (kvl_rows s)) as [r|] eqn:Fr; [|reflexivity].
  apply find_some in Fr. destruct Fr as [_ Hk].
  unfold key_is in Hk. apply String.eqb_eq in Hk.
  simpl. unfold key_is. replace (String.eqb (key r) k) with false; [reflexivity|].
  symmetry. apply String.eqb_neq. congruence.
Qed.

Lemma get_set_other_witness :
  "size" <> "color" /\ get (set true demo "color" "blue" 50) "size" = get demo "size".
Proof.
  assert (H : "size" <> "color") by discriminate.
  split; [exact H|]. exact (get_set_other true demo "color" "size" "blue" 50 H).
Defined.

(** X3. [get(k)] returns undefined exactly when no record has key [k]; a
    missing key is not an error. *)
Theorem get_undefined_iff (s : KVL) (k : string) :
  get s k = None <-> ~ In k (map key (kvl_rows s)).
Proof.
  unfold get, sql_get. split.
  - intros H Hin. destruct (find_key_some k _ Hin) as [r F].
    rewrite F in H. discriminate.
  - intros H. rewrite (find_key_none k _ H). reflexivity.
Qed.

Lemma get_undefined_iff_witness :
  ~ In "size" (map key (kvl_rows demo)) /\ get demo "size" = None.
Proof.
  assert (H : ~ In "size" (map key (kvl_rows demo))) by (simpl; intuition discriminate).
  split; [exact H|]. exact (proj2 (get_undefined_iff demo "size") H).
Defined.

(** X4. The key that [push] returns is the name, a colon and the uuid, and
    [get] of that key returns the pushed value. *)
Theorem push_then_get (takes_id : bool) (s : KVL) (name v uuid : string) (now : Z) :
  let (k, s') := push takes_id s name v uuid now in
  k = (name ++ ":" ++ uuid)%string /\ get s' k = Some v.
Proof.
  unfold push. split; [reflexivity|]. apply get_after_set.
Qed.

(** X5. A write of tags changes what [get] returns for no key, and neither
    does a read of tags. *)
Theorem tags_keeps_values (s : KVL) (k k' : string) (tgs : option string) (now : Z) :
  get (snd (tags s k tgs now)) k' = get s k'.
Proof.
  unfold tags. destruct tgs as [l|].
  - assert (H : get (with_rows s (fst (sql_update (key_is k) (set_labels l now) (kvl_rows s)))) k'
                = get s k').
    { unfold get, sql_get, with_rows, sql_update. cbn [fst kvl_rows].
      rewrite find_map_keeps by (intros r; destruct (key_is k r); reflexivity).
      destruct (find (key_is k') (kvl_rows s)) as [r|]; [|reflexivity].
      simpl. destruct (key_is k r); reflexivity. }
    destruct (snd _ <? 1); exact H.
  - destruct (sql_get _ _); reflexivity.
Qed.

(** X6. A record that [set] has just created has no labels: [tags(k)]
    returns NULL for it, not a string and not an error. *)
Theorem new_record_has_no_labels (takes_id : bool) (s : KVL) (k v : string)
  (now later : Z) :
  ~ In k (map key (kvl_rows s)) ->
  fst (tags (set takes_id s k v now) k None later) = Returned (Labels None).
Proof.
  intros H. rewrite set_fresh by exact H.
  unfold tags, sql_get. cbn [kvl_rows].
  assert (F : find (key_is k) (kvl_rows s ++ [mkRow (kvl_seq s + 1) k v None now now])
              = Some (mkRow (kvl_seq s + 1) k v None now now)).
  { apply find_snoc_hit; [apply find_key_none, H|].
    unfold key_is. simpl. apply String.eqb_refl. }
  rewrite F. reflexivity.
Qed.

Lemma new_record_has_no_labels_witness :
  ~ In "size" (map key (kvl_rows demo))
  /\ fst (tags (set false demo "size" "xl" 50) "size" None 51) = Returned (Labels None).
Proof.
  assert (H : ~ In "size" (map key (kvl_rows demo))) by (simpl; intuition discriminate).
  split; [exact H|]. exact (new_record_has_no_labels false demo "size" "xl" 50 51 H).
Defined.

(** ** The table through a run of calls *)

Lemma ok_exec (takes_id : bool) (s : KVL) (c : call) :
  table_ok s -> table_ok (exec takes_id s c).
Proof.
  intros H. destruct c; simpl; try exact H.
  - apply ok_set, H.
  - apply ok_set, H.
  - apply ok_delete_item, H.
  - apply ok_delete_item, H.
  - apply ok_tags, H.
  - apply ok_expire, H.
Qed.

(** X7. Whatever calls are made, in whatever order, the table keeps the
    constraints of its schema: no two records share a key or an id, and no
    id is below 1 or above the counter. *)
Theorem run_keeps_table_ok (takes_id : bool) (cs : list call) :
  forall s, table_ok s -> table_ok (run takes_id s cs).
Proof.
  induction cs as [|c cs IH]; intros s H; simpl; [exact H|].
  apply IH, ok_exec, H.
Qed.

Lemma run_keeps_table_ok_witness :
  table_ok demo
  /\ table_ok (run true demo [CallPush "q" "third" "u3" 70; CallShift "q";
                              CallSet "color" "blue" 80; CallExpire 120]).
Proof.
  split; [exact demo_ok|].
  exact (run_keeps_table_ok true _ demo demo_ok).
Defined.

(** ** The order of a list *)

(** X8. [set] on a key that exists leaves every list with the same member
    keys in the same order: rewriting the value of a queued item through
    the key that [push] returned does not move it in the queue. *)
Theorem set_keeps_place (takes_id : bool) (s : KVL) (k v name : string) (now : Z) :
  In k (map key (kvl_rows s)) ->
  map key (members (set takes_id s k v now) name) = map key (members s name)
  /\ map id (members (set takes_id s k v now) name) = map id (members s name).
Proof.
  intros H. unfold members. rewrite set_existing by exact H.
  rewrite filter_map_commute
    by (intros r; unfold key_like; destruct (key_is k r); reflexivity).
  rewrite !map_map. split; apply map_ext; intros r; destruct (key_is k r); reflexivity.
Qed.

Lemma set_keeps_place_witness :
  In "q:u1" (map key (kvl_rows demo))
  /\ map key (members (set true demo "q:u1" "changed" 50) "q") = ["q:u1"; "q:u2"].
Proof.
  assert (H : In "q:u1" (map key (kvl_rows demo))) by (right; left; reflexivity).
  split; [exact H|].
  exact (proj1 (set_keeps_place true demo "q:u1" "changed" "q" 50 H)).
Defined.

Lemma delete_by_id_in (s : KVL) (m r : row) :
  table_ok s -> In m (kvl_rows s) ->
  In r (filter (fun x => negb (id x =? id m)) (kvl_rows s))
  <-> In r (kvl_rows s) /\ r <> m.
Proof.
  intros Hok Hm. rewrite filter_In, negb_true_iff, Z.eqb_neq.
  split; intros [Hr Hne]; split; try exact Hr.
  - intros ->. apply Hne. reflexivity.
  - intros E. apply Hne. apply (sorted_id_inj _ _ _ (ok_sorted _ Hok) Hr Hm E).
Qed.

(** X9. When [shift(name)] returns a value, it is the value of the member
    of the list with the least id, and that record, and no other, is gone
    from the table afterwards. *)
Theorem shift_takes_least (s : KVL) (name v : string) :
  table_ok s -> fst (shift s name) = Some v ->
  exists m, In m (kvl_rows s) /\ key_like name m = true /\ value m = v
            /\ (forall r, In r (kvl_rows s) -> key_like name r = true -> id m <= id r)
            /\ (forall r, In r (kvl_rows (snd (shift s name)))
                          <-> In r (kvl_rows s) /\ r <> m).
Proof.
  intros Hok. unfold shift. cbn [fst snd].
  rewrite (get_asc_first _ _ (ok_sorted _ Hok)).
  pose proof (sorted_filter (key_like name) _ (ok_sorted _ Hok)) as Hs.
  destruct (filter (key_like name) (kvl_rows s)) as [|m ms] eqn:E; [discriminate|].
  cbn [hd_error option_map]. intros Hv. injection Hv as Hv.
  assert (Hm : In m (filter (key_like name) (kvl_rows s))) by (rewrite E; left; reflexivity).
  apply filter_In in Hm. destruct Hm as [Hm Hc].
  exists m. split; [exact Hm|]. split; [exact Hc|]. split; [exact Hv|]. split.
  - intros r Hr Hrc.
    assert (Hin : In r (m :: ms)) by (rewrite <- E; apply filter_In; auto).
    inversion Hs as [|? ? _ Hlt]; subst. rewrite Forall_forall in Hlt.
    destruct Hin as [<-|Hin]; [lia|]. specialize (Hlt r Hin). unfold id_lt in Hlt. lia.
  - intros r. unfold delete_item.
    replace (id m =? 0) with false.
    + apply (delete_by_id_in s m r Hok Hm).
    + symmetry. apply Z.eqb_neq. pose proof (ok_ids _ Hok) as Hi.
      rewrite Forall_forall in Hi. specialize (Hi m Hm). lia.
Qed.

Lemma shift_takes_least_witness :
  table_ok demo /\ fst (shift demo "q") = Some "first"
  /\ exists m, In m (kvl_rows demo) /\ value m = "first".
Proof.
  split; [exact demo_ok|]. split; [reflexivity|].
  destruct (shift_takes_least demo "q" "first" demo_ok eq_refl) as [m [H1 [_ [H3 _]]]].
  exists m. split; assumption.
Defined.

(** X10. When [pop(name)] returns a value, it is the value of the member of
    the list with the greatest id, and that record, and no other, is gone
    from the table afterwards. *)
Theorem pop_takes_greatest (s : KVL) (name v : string) :
  table_ok s -> fst (pop s name) = Some v ->
  exists m, In m (kvl_rows s) /\ key_like name m = true /\ value m = v
            /\ (forall r, In r (kvl_rows s) -> key_like name r = true -> id r <= id m)
            /\ (forall r, In r (kvl_rows (snd (pop s name)))
                          <-> In r (kvl_rows s) /\ r <> m).
Proof.
  intros Hok. unfold pop. cbn [fst snd].
  pose proof (sorted_filter (key_like name) _ (ok_sorted _ Hok)) as Hs.
  assert (Hcase : filter (key_like name) (kvl_rows s) = []
                  \/ exists ms m, filter (key_like name) (kvl_rows s) = ms ++ [m]).
  { generalize (filter (key_like name) (kvl_rows s)). intros l.
    induction l as [|x l _] using rev_ind; [left|right]; eauto. }
  destruct Hcase as [E0|[ms [m E0]]].
  - unfold sql_get_order_by_id_desc. rewrite E0. discriminate.
  - rewrite E0 in Hs.
    rewrite (get_desc_last _ _ ms m (ok_sorted _ Hok) E0).
    cbn [option_map]. intros Hv. injection Hv as Hv.
    assert (Hm : In m (filter (key_like name) (kvl_rows s)))
      by (rewrite E0; apply in_or_app; right; left; reflexivity).
    apply filter_In in Hm. destruct Hm as [Hm Hc].
    exists m. split; [exact Hm|]. split; [exact Hc|]. split; [exact Hv|]. split.
    + intros r Hr Hrc.
      assert (Hin : In r (ms ++ [m])) by (rewrite <- E0; apply filter_In; auto).
      apply sorted_app_inv in Hs. rewrite Forall_forall in Hs.
      apply in_app_or in Hin. destruct Hin as [Hin|[<-|[]]]; [|lia].
      specialize (Hs r Hin). lia.
    + intros r. unfold delete_item.
      replace (id m =? 0) with false.
      * apply (delete_by_id_in s m r Hok Hm).
      * symmetry. apply Z.eqb_neq. pose proof (ok_ids _ Hok) as Hi.
        rewrite Forall_forall in Hi. specialize (Hi m Hm). lia.
Qed.

Lemma pop_takes_greatest_witness :
  table_ok demo /\ fst (pop demo "q") = Some "second"
  /\ exists m, In m (kvl_rows demo) /\ value m = "second".
Proof.
  split; [exact demo_ok|]. split; [reflexivity|].
  destruct (pop_takes_greatest demo "q" "second" demo_ok eq_refl) as [m [H1 [_ [H3 _]]]].
  exists m. split; assumption.
Defined.

Lemma pick_none (better : Z -> Z -> bool) (l : list row) :
  forall acc, fold_left (pick better) l acc = None -> l = [] /\ acc = None.
Proof.
  induction l as [|a l IH]; simpl; intros acc H; [auto|].
  apply IH in H. destruct H as [_ H].
  destruct acc as [b|]; simpl in H; [destruct (better (id a) (id b))|]; discriminate.
Qed.

(** X11. [shift(name)] and [pop(name)] return undefined exactly when
    [all(name)] is empty, and then they leave the table as it is. *)
Theorem undefined_iff_empty (s : KVL) (name : string) :
  (fst (shift s name) = None <-> all s name = [])
  /\ (fst (pop s name) = None <-> all s name = [])
  /\ (all s name = [] -> snd (shift s name) = s /\ snd (pop s name) = s).
Proof.
  rewrite all_nil_members.
  assert (N : forall better,
             option_map value (fold_left (pick better) (members s name) None) = None
             <-> members s name = []).
  { intros better. split.
    - intros H. destruct (fold_left _ _ _) eqn:F; [discriminate|].
      apply pick_none in F. tauto.
    - intros ->. reflexivity. }
  split; [apply N|]. split; [apply N|].
  intros E. rewrite (shift_empty s name E), (pop_empty s name E). auto.
Qed.

Lemma undefined_iff_empty_witness :
  all demo "jobs" = []
  /\ fst (pop demo "jobs") = None /\ snd (shift demo "jobs") = demo.
Proof.
  pose proof (undefined_iff_empty demo "jobs") as [_ [H2 H3]].
  split; [reflexivity|].
  split; [exact (proj2 H2 eq_refl)|exact (proj1 (H3 eq_refl))].
Defined.

(** X12. A [push] with a key that is new to the table, followed by [pop] on
    the same list, returns the pushed value and leaves the records as they
    were before the push; only the id counter has moved. *)
Theorem push_pop_round_trip (takes_id : bool) (s : KVL) (name v uuid : string)
  (now : Z) :
  table_ok s ->
  ~ In (name ++ ":" ++ uuid)%string (map key (kvl_rows s)) ->
  pop (snd (push takes_id s name v uuid now)) name
  = (Some v, mkKVL (expireTimeMs s) (kvl_rows s) (kvl_seq s + 1)).
Proof.
  intros Hok Hnew.
  pose proof (ok_set takes_id s (name ++ ":" ++ uuid) v now Hok) as Hok'.
  pose proof (members_push_fresh takes_id s name v uuid now Hnew) as M.
  unfold push in *. cbn [snd] in *.
  unfold pop. rewrite (get_desc_last _ _ _ _ (ok_sorted _ Hok') M).
  cbn [option_map value]. f_equal.
  rewrite set_fresh by exact Hnew.
  unfold delete_item. cbn [id].
  replace (kvl_seq s + 1 =? 0) with false
    by (symmetry; apply Z.eqb_neq; pose proof (ok_seq _ Hok); lia).
  unfold with_rows, sql_delete. cbn [fst kvl_rows expireTimeMs kvl_seq]. f_equal.
  rewrite filter_app. cbn [filter id]. rewrite Z.eqb_refl. cbn [negb].
  rewrite app_nil_r. apply filter_all_true.
  pose proof (ok_ids _ Hok) as Hi. revert Hi. apply Forall_impl.
  intros r Hr. apply negb_true_iff, Z.eqb_neq. lia.
Qed.

Lemma push_pop_round_trip_witness :
  table_ok demo /\ ~ In "q:u3" (map key (kvl_rows demo))
  /\ pop (snd (push true demo "q" "third" "u3" 50)) "q"
     = (Some "third", mkKVL (expireTimeMs demo) (kvl_rows demo) (kvl_seq demo + 1)).
Proof.
  assert (H : ~ In "q:u3" (map key (kvl_rows demo))) by (simpl; intuition discriminate).
  split; [exact demo_ok|]. split; [exact H|].
  exact (push_pop_round_trip true demo "q" "third" "u3" 50 demo_ok H).
Defined.

(** X13. A value pushed with a new key to a list that already has members
    is shifted after all of them: as many shifts as there are members return
    the old members' values in order, and the next shift returns the pushed
    value. *)
Theorem push_goes_last (takes_id : bool) (s : KVL) (name v uuid : string) (now : Z) :
  table_ok s ->
  ~ In (name ++ ":" ++ uuid)%string (map key (kvl_rows s)) ->
  fst (shift_n (S (List.length (members s name)))
               (snd (push takes_id s name v uuid now)) name)
  = map (fun r => Some (value r)) (members s name) ++ [Some v].
Proof.
  intros Hok Hnew.
  pose proof (ok_set takes_id s (name ++ ":" ++ uuid) v now Hok) as Hok'.
  pose proof (members_push_fresh takes_id s name v uuid now Hnew) as M.
  destruct (shift_n_members _ _ name Hok' M) as [F _].
  rewrite length_app, Nat.add_comm in F. cbn [List.length Nat.add] in F.
  unfold push in *. cbn [snd] in *.
  rewrite F, map_app. reflexivity.
Qed.

Lemma push_goes_last_witness :
  table_ok demo /\ ~ In "q:u3" (map key (kvl_rows demo))
  /\ fst (shift_n 3 (snd (push false demo "q" "third" "u3" 50)) "q")
     = [Some "first"; Some "second"; Some "third"].
Proof.
  assert (H : ~ In "q:u3" (map key (kvl_rows demo))) by (simpl; intuition discriminate).
  split; [exact demo_ok|]. split; [exact H|].
  exact (push_goes_last false demo "q" "third" "u3" 50 demo_ok H).
Defined.

(** ** [all] *)

Lemma set_has_row (takes_id : bool) (s : KVL) (k v : string) (now : Z) :
  exists r, In r (kvl_rows (set takes_id s k v now))
            /\ key r = k /\ value r = v /\ updateTime r = now.
Proof.
  pose proof (insert_has_key takes_id s now now k v) as H.
  apply in_map_iff in H. destruct H as [r0 [K Hr0]].
  exists (set_value v now r0). split; [|auto].
  unfold set, sql_update. cbn [fst with_rows kvl_rows].
  apply in_map_iff. exists r0. split; [|exact Hr0].
  unfold key_is. rewrite K, String.eqb_refl. reflexivity.
Qed.

(** X14. After [push(name, v)], [all(name)] lists the key that [push]
    returned, with the value [v] and the time of the call as [updateTime]. *)
Theorem push_is_listed (takes_id : bool) (s : KVL) (name v uuid : string) (now : Z) :
  let (k, s') := push takes_id s name v uuid now in
  exists it, In it (all s' name)
             /\ item_key it = k /\ item_value it = v /\ item_updateTime it = now.
Proof.
  unfold push.
  destruct (set_has_row takes_id s (name ++ ":" ++ uuid) v now) as [r [Hr [K [V U]]]].
  exists (select_columns r). split; [|auto].
  unfold all. apply in_map, order_by_in, filter_In.
  split; [exact Hr|]. apply (key_like_pushed name uuid), K.
Qed.

Lemma insert_createTime_sorted (r : row) (rs : list row) :
  StronglySorted createTime_ge (map select_columns rs) ->
  StronglySorted createTime_ge (map select_columns (insert_createTime_desc r rs)).
Proof.
  induction rs as [|x rs IH]; simpl; intros H.
  - repeat constructor.
  - inversion H as [|? ? Hs Hx]; subst.
    destruct (createTime x <=? createTime r) eqn:E; simpl.
    + apply Z.leb_le in E. constructor; [exact H|].
      constructor; [exact E|].
      revert Hx. apply Forall_impl. unfold createTime_ge. simpl. intros a Ha. lia.
    + apply Z.leb_gt in E. constructor; [apply IH, Hs|].
      apply Forall_forall. intros a Ha. apply in_map_iff in Ha.
      destruct Ha as [y [<- Hy]]. apply insert_createTime_in in Hy.
      destruct Hy as [->|Hy].
      * unfold createTime_ge. simpl. lia.
      * rewrite Forall_forall in Hx. apply Hx. apply in_map, Hy.
Qed.

Lemma insert_createTime_perm (r : row) (rs : list row) :
  Permutation (insert_createTime_desc r rs) (r :: rs).
Proof.
  induction rs as [|x rs IH]; simpl; [apply Permutation_refl|].
  destruct (createTime x <=? createTime r); [apply Permutation_refl|].
  apply perm_trans with (x :: r :: rs); [apply perm_skip, IH|apply perm_swap].
Qed.

Lemma order_by_perm (rs : list row) : Permutation (order_by_createTime_desc rs) rs.
Proof.
  induction rs as [|r rs IH]; simpl; [apply perm_nil|].
  apply perm_trans with (r :: order_by_createTime_desc rs);
    [apply insert_createTime_perm|apply perm_skip, IH].
Qed.

(** X15. [all(name)] comes ordered by [createTime], latest first, and is a
    rearrangement of the selected columns of the members of the list: each
    member is listed once, and nothing else is. *)
Theorem all_is_ordered (s : KVL) (name : string) :
  StronglySorted createTime_ge (all s name)
  /\ Permutation (all s name) (map select_columns (members s name))
  /\ List.length (all s name) = List.length (members s name).
Proof.
  unfold all. fold (members s name). split; [|split].
  - induction (members s name) as [|r rs IH]; simpl; [constructor|].
    apply insert_createTime_sorted, IH.
  - apply Permutation_map, order_by_perm.
  - rewrite length_map. apply order_by_length.
Qed.

(** ** [page] *)

(** X16. Called without tags, on a state and a name for which [LIKE] does
    not refuse the pattern, [page] does not throw, whatever the page number
    and the page size: it counts as [total] the items that [all(name)]
    lists, and it leaves the page number as requested or lowers it to the
    page count, never raising it. *)
Theorem page_total_and_pageNum (s : KVL) (name : string)
  (pageNum0 pageSize0 : option Z) (tgs : option (list string))
  (tagsOperator : option tags_operator) (orderBy : option order_by)
  (orderDir : option order_dir) :
  like_throws s name = false ->
  tgs = None \/ tgs = Some [] ->
  exists loc,
    page_body s name pageNum0 pageSize0 tgs tagsOperator orderBy orderDir
    = Returned loc
    /\ total loc = Z.of_nat (List.length (all s name))
    /\ pageNum loc <= match pageNum0 with Some n => n | None => 1 end
    /\ (pageNum loc = match pageNum0 with Some n => n | None => 1 end
        \/ pages loc = Some (pageNum loc)).
Proof.
  intros _ Htags. unfold page_body.
  replace (bind_parameters (page_placeholders tgs) 1) with (@None js_error)
    by (destruct Htags as [-> | ->]; reflexivity).
  eexists. split; [reflexivity|]. cbn [total pageNum pages].
  split.
  - unfold all. rewrite length_map, order_by_length. reflexivity.
  - destruct (option_map _ _) as [p|]; [|split; [lia|left; reflexivity]].
    destruct (_ >? p) eqn:E.
    + apply Z.gtb_lt in E. split; [lia|right; reflexivity].
    + split; [lia|left; reflexivity].
Qed.

Lemma page_total_and_pageNum_witness :
  like_throws demo "q" = false
  /\ ((@None (list string)) = None \/ (@None (list string)) = Some [])
  /\ exists loc,
       page_body demo "q" (Some 7) (Some 0) None None None None = Returned loc
       /\ total loc = 2.
Proof.
  split; [reflexivity|]. split; [left; reflexivity|].
  destruct (page_total_and_pageNum demo "q" (Some 7) (Some 0) None None None None
              eq_refl (or_introl eq_refl)) as [loc [H [T _]]].
  exists loc. split; [exact H|exact T].
Defined.

(** ** [expire] and the constructor *)

Lemma filter_twice {A} (f g : A -> bool) (l : list A) :
  filter g (filter f l) = filter (fun x => f x && g x) l.
Proof.
  induction l as [|a l IH]; simpl; [reflexivity|].
  destruct (f a); simpl; [destruct (g a)|]; rewrite IH; reflexivity.
Qed.

(** X17. Two sweeps in a row do what one sweep at the later of the two
    times does; so the sweeps of the constructor's timer add up to the last
    of them, and a sweep repeated at the same time changes nothing more. *)
Theorem expire_twice (s : KVL) (t1 t2 : Z) :
  expire (expire s t1) t2 = expire s (Z.max t1 t2).
Proof.
  destruct (expireTimeMs s) as [e|] eqn:E.
  - destruct (e =? 0) eqn:E0.
    + assert (H : forall t, expire s t = s)
        by (intros t; unfold expire; rewrite E, E0; reflexivity).
      rewrite !H. reflexivity.
    + assert (H : forall t, expire s t
                  = with_rows s (filter (fun r => negb (updateTime r <=? t - e))
                                        (kvl_rows s)))
        by (intros t; unfold expire; rewrite E, E0; reflexivity).
      rewrite !H. unfold expire. cbn [with_rows expireTimeMs kvl_rows kvl_seq].
      rewrite E, E0. unfold with_rows, sql_delete.
      cbn [fst expireTimeMs kvl_rows kvl_seq]. f_equal.
      rewrite filter_twice. apply filter_ext. intros r.
      destruct (updateTime r <=? t1 - e) eqn:L1, (updateTime r <=? t2 - e) eqn:L2;
        simpl; symmetry; rewrite ?negb_true_iff, ?negb_false_iff;
        rewrite ?Z.leb_le, ?Z.leb_gt in *; lia.
  - assert (H : forall t, expire s t = s)
      by (intros t; unfold expire; rewrite E; reflexivity).
    rewrite !H. reflexivity.
Qed.

Lemma set_rows_of_key (takes_id : bool) (s : KVL) (k v : string) (now : Z) (r : row) :
  In r (kvl_rows (set takes_id s k v now)) -> key_is k r = true ->
  value r = v /\ updateTime r = now.
Proof.
  unfold set, sql_update. cbn [fst with_rows kvl_rows].
  intros Hr Hk. apply in_map_iff in Hr. destruct Hr as [r0 [E _]].
  destruct (key_is k r0) eqn:K0; subst r; [auto|congruence].
Qed.

Lemma find_filter_kept (cond keep : row -> bool) (rs : list row) :
  (forall r, In r rs -> cond r = true -> keep r = true) ->
  find cond (filter keep rs) = find cond rs.
Proof.
  induction rs as [|a rs IH]; simpl; intros H; [reflexivity|].
  destruct (cond a) eqn:C.
  - rewrite (H a (or_introl eq_refl) C). simpl. rewrite C. reflexivity.
  - destruct (keep a); simpl; rewrite ?C; apply IH; auto.
Qed.

Lemma find_filter_dropped (cond keep : row -> bool) (rs : list row) :
  (forall r, In r rs -> cond r = true -> keep r = false) ->
  find cond (filter keep rs) = None.
Proof.
  induction rs as [|a rs IH]; simpl; intros H; [reflexivity|].
  destruct (keep a) eqn:K; simpl.
  - destruct (cond a) eqn:C; [|apply IH; auto].
    rewrite (H a (or_introl eq_refl) C) in K. discriminate.
  - apply IH. auto.
Qed.

Lemma set_expireTimeMs (takes_id : bool) (s : KVL) (k v : string) (now : Z) :
  expireTimeMs (set takes_id s k v now) = expireTimeMs s.
Proof.
  unfold set, insert_or_ignore.
  destruct (existsb (key_is k) (kvl_rows s)); reflexivity.
Qed.

(** X18. With an expiry time E other than 0, a value set at time [now] is
    still returned by [get] after a sweep at time [later] when fewer than E
    milliseconds have passed, and is gone after a sweep once E milliseconds
    or more have passed. *)
Theorem set_then_expire (takes_id : bool) (s : KVL) (k v : string)
  (now later E : Z) :
  expireTimeMs s = Some E -> E <> 0 ->
  get (expire (set takes_id s k v now) later) k
  = if later - now <? E then Some v else None.
Proof.
  intros HE Hnz. unfold expire. rewrite set_expireTimeMs, HE.
  replace (E =? 0) with false by (symmetry; apply Z.eqb_neq; exact Hnz).
  unfold get, sql_get, with_rows, sql_delete. cbn [fst kvl_rows].
  destruct (later - now <? E) eqn:L.
  - apply Z.ltb_lt in L. rewrite find_filter_kept.
    + apply (get_after_set takes_id s k v now).
    + intros r Hr Hk. destruct (set_rows_of_key takes_id s k v now r Hr Hk) as [_ U].
      apply negb_true_iff, Z.leb_gt. lia.
  - apply Z.ltb_ge in L. rewrite find_filter_dropped; [reflexivity|].
    intros r Hr Hk. destruct (set_rows_of_key takes_id s k v now r Hr Hk) as [_ U].
    apply negb_false_iff, Z.leb_le. lia.
Qed.

Lemma set_then_expire_witness :
  expireTimeMs demo = Some 100 /\ 100 <> 0
  /\ get (expire (set true demo "color" "blue" 50) 149) "color" = Some "blue"
  /\ get (expire (set true demo "color" "blue" 50) 150) "color" = None.
Proof.
  split; [reflexivity|]. split; [lia|]. split.
  - exact (set_then_expire true demo "color" "blue" 50 149 100 eq_refl ltac:(lia)).
  - exact (set_then_expire true demo "color" "blue" 50 150 100 eq_refl ltac:(lia)).
Defined.

(** X19. A store that has just been constructed holds the expiry time it
    was given and, of the records of its file, those that the first sweep
    keeps: all of them without an expiry time or with one of 0, and else
    those updated after [now - E]. A file that did not exist gives an empty
    store. The constraints of the schema carry over from the file. *)
Theorem new_KVL_holds (file : option (list row * Z)) (E : option Z) (now : Z) :
  let s := new_KVL file E now in
  expireTimeMs s = E
  /\ (file = None -> kvl_rows s = [])
  /\ (forall rows seq, file = Some (rows, seq) ->
        (forall r, In r (kvl_rows s)
                   <-> In r rows
                       /\ match E with
                          | Some e => e = 0 \/ now - e < updateTime r
                          | None => True
                          end)
        /\ (table_ok (mkKVL E rows seq) -> table_ok s)).
Proof.
  unfold new_KVL. cbv zeta. split; [|split].
  - unfold expire. cbn [expireTimeMs].
    destruct E as [e|]; [destruct (e =? 0)|]; reflexivity.
  - intros ->. unfold expire. cbn [expireTimeMs fst snd].
    destruct E as [e|]; [destruct (e =? 0)|]; reflexivity.
  - intros rows seq ->. cbn [fst snd]. split; [|apply ok_expire].
    intros r. unfold expire. cbn [expireTimeMs].
    destruct E as [e|]; [|cbn [kvl_rows]; tauto].
    destruct (e =? 0) eqn:E0; cbn [kvl_rows with_rows sql_delete fst].
    + apply Z.eqb_eq in E0. tauto.
    + apply Z.eqb_neq in E0.
      rewrite filter_In, negb_true_iff, Z.leb_gt. intuition.
Qed.

Lemma new_KVL_holds_witness :
  (@None (list row * Z)) = None /\ kvl_rows (new_KVL None (Some 100) 7) = []
  /\ table_ok (mkKVL (Some 100) (kvl_rows demo) 4)
  /\ table_ok (new_KVL (Some (kvl_rows demo, 4)) (Some 100) 125).
Proof.
  pose proof (new_KVL_holds None (Some 100) 7) as H1.
  pose proof (new_KVL_holds (Some (kvl_rows demo, 4)) (Some 100) 125) as H2.
  cbv zeta in H1, H2.
  split; [reflexivity|]. split; [exact (proj1 (proj2 H1) eq_refl)|].
  split; [exact demo_ok|].
  exact (proj2 (proj2 (proj2 H2) (kvl_rows demo) 4 eq_refl) demo_ok).
Defined.
